(** * Localization coverage and backfill: a shallow embedding

    The translation catalogue of the support-bot admin panel: the
    [Translation] and [Language] tables of [models.py], the placeholder
    codec and the GPT round trip of [services/gpt_translate.py], the two
    persisting routes ([routes/save_translations.py],
    [routes/gpt_translations.py]) and the two read-only routes of
    [main.py] ([show_translations], [translate_missing]).

    Python [str] values are sequences of Unicode code points, dictionaries
    are association lists in insertion order with one binding per key, and
    a handler is a computation over a database session that either returns
    a response or raises. *)

From Stdlib Require Import String Ascii.
From Stdlib Require Import List NArith ZArith Bool Lia.
From Stdlib Require Import Permutation Sorted.
Import ListNotations.

Set Implicit Arguments.

(** ** Python strings *)

Definition char := N.
Definition str := list char.

(** ASCII literals of the source text. *)
Definition lit (s : string) : str :=
  List.map N_of_ascii (list_ascii_of_string s).

Fixpoint str_eqb (a b : str) : bool :=
  match a, b with
  | [], [] => true
  | x :: a', y :: b' => N.eqb x y && str_eqb a' b'
  | _, _ => false
  end.

(** [text.startswith(p)] *)
Fixpoint startswith (p text : str) : bool :=
  match p, text with
  | [], _ => true
  | x :: p', y :: text' => N.eqb x y && startswith p' text'
  | _ :: _, [] => false
  end.

(** [p in text] on strings: some suffix of [text] starts with [p]. *)
Fixpoint contains (p text : str) : bool :=
  startswith p text ||
  match text with
  | [] => false
  | _ :: text' => contains p text'
  end.

(** [text.endswith(p)] *)
Definition endswith (text p : str) : bool :=
  startswith (rev p) (rev text).

(** [text.replace(old, new)]: every occurrence, leftmost first, without
    overlap.  [skip] counts the characters of a matched occurrence that are
    still to be dropped.  With an empty [old] Python puts [new] before every
    character and at the end. *)
Fixpoint replace_from (old new : str) (skip : nat) (text : str) : str :=
  match text with
  | [] => []
  | c :: rest =>
      match skip with
      | S k => replace_from old new k rest
      | O =>
          if startswith old text
          then new ++ replace_from old new (length old - 1) rest
          else c :: replace_from old new 0 rest
      end
  end.

Definition replace (old new text : str) : str :=
  match old with
  | [] => new ++ flat_map (fun c => c :: new) text
  | _ :: _ => replace_from old new 0 text
  end.

(** [str.isspace] for one code point. *)
Definition isspace (c : char) : bool :=
  (((9 <=? c) && (c <=? 13)) || ((28 <=? c) && (c <=? 32)) ||
   (c =? 133) || (c =? 160) || (c =? 5760) ||
   ((8192 <=? c) && (c <=? 8202)) || (c =? 8232) || (c =? 8233) ||
   (c =? 8239) || (c =? 8287) || (c =? 12288))%N.

Fixpoint lstrip (s : str) : str :=
  match s with
  | [] => []
  | c :: rest => if isspace c then lstrip rest else s
  end.

Definition rstrip (s : str) : str := rev (lstrip (rev s)).

(** [s.strip()] *)
Definition strip (s : str) : str := rstrip (lstrip s).

(** [not s] for a string. *)
Definition is_empty (s : str) : bool :=
  match s with [] => true | _ :: _ => false end.

(** Line boundaries of [str.splitlines]. *)
Definition is_linebreak (c : char) : bool :=
  (((10 <=? c) && (c <=? 13)) || ((28 <=? c) && (c <=? 30)) ||
   (c =? 133) || (c =? 8232) || (c =? 8233))%N.

Fixpoint splitlines_from (cur : str) (s : str) : list str :=
  match s with
  | [] => if is_empty cur then [] else [rev cur]
  | c :: rest =>
      if (c =? 13)%N then
        match rest with
        | 10%N :: rest' => rev cur :: splitlines_from [] rest'
        | _ => rev cur :: splitlines_from [] rest
        end
      else if is_linebreak c then rev cur :: splitlines_from [] rest
      else splitlines_from (c :: cur) rest
  end.

Definition splitlines (s : str) : list str := splitlines_from [] s.

(** [line.split(":", 1)] when [":" in line]: the text before the first
    colon and the text after it. *)
Fixpoint split_colon (line : str) : option (str * str) :=
  match line with
  | [] => None
  | c :: rest =>
      if (c =? 58)%N then Some ([], rest)
      else match split_colon rest with
           | Some (k, v) => Some (c :: k, v)
           | None => None
           end
  end.

(** [sep.join(parts)] *)
Fixpoint join (sep : str) (parts : list str) : str :=
  match parts with
  | [] => []
  | [p] => p
  | p :: rest => p ++ sep ++ join sep rest
  end.

(** ** Python dictionaries: insertion order, one binding per key *)

Section Dict.
Variable V : Type.

Definition dict := list (str * V).

Fixpoint dict_get (d : dict) (k : str) : option V :=
  match d with
  | [] => None
  | (k', v) :: rest => if str_eqb k' k then Some v else dict_get rest k
  end.

(** [k in d] *)
Definition dict_mem (d : dict) (k : str) : bool :=
  match dict_get d k with Some _ => true | None => false end.

(** [d[k] = v]: an existing key keeps its place. *)
Fixpoint dict_set (d : dict) (k : str) (v : V) : dict :=
  match d with
  | [] => [(k, v)]
  | (k', v') :: rest =>
      if str_eqb k' k then (k', v) :: rest
      else (k', v') :: dict_set rest k v
  end.

Definition dict_keys (d : dict) : list str := List.map fst d.
End Dict.

(** [x in s] for a set of strings, kept as the list of what was added. *)
Definition set_mem (x : str) (s : list str) : bool :=
  existsb (str_eqb x) s.

(** ** The placeholder codec ([services/gpt_translate.py]) *)

Definition SPACE : str := lit " ".
Definition FLAG_TOKEN : str := lit "{flag}".
Definition SPACE_FLAG_TOKEN : str := lit " {flag}".

(** [patch_flag(text)]; [flags] is the content of [flags.json], a dictionary
    from language code to flag glyph, walked in file order. *)
Fixpoint patch_flag (flags : dict str) (text : str) : str :=
  match flags with
  | [] => text
  | (code, flag) :: rest =>
      if contains (SPACE ++ flag) text
      then replace (SPACE ++ flag) SPACE_FLAG_TOKEN text
      else if endswith text flag
      then replace flag FLAG_TOKEN text
      else patch_flag rest text
  end.


(** ** The tables ([models.py]) *)

Module Translation.
(** [class Translation(Base)]: [id] is the primary key; [key], [lang]
    and [text] are plain columns. *)
Record t := mk { id : Z; key : str; lang : str; text : str }.
End Translation.

Module Language.
(** [class Language(Base)]: [code] is the primary key; [emoji] may be
    NULL. *)
Record t := mk {
  code : str; name : str; name_ru : str;
  emoji : option str; available : bool }.
End Language.

Record DB := mkDB {
  translations : list Translation.t;
  languages : list Language.t }.

(** A uniqueness constraint of a table tells when two rows collide. *)
Definition unique_constraint := Translation.t -> Translation.t -> bool.

Definition same_id : unique_constraint :=
  fun a b => Z.eqb (Translation.id a) (Translation.id b).

Definition same_key_lang : unique_constraint :=
  fun a b => str_eqb (Translation.key a) (Translation.key b)
             && str_eqb (Translation.lang a) (Translation.lang b).

(** The constraints [models.py] declares for [translations]: the primary
    key and nothing else (no [UniqueConstraint], no [unique=True]). *)
Definition Translation_constraints : list unique_constraint := [same_id].

(** The value an auto-increment primary key takes for a new row. *)
Definition next_id (rows : list Translation.t) : Z :=
  (1 + fold_right (fun r m => Z.max (Translation.id r) m) 0 rows)%Z.

Definition collides (constraints : list unique_constraint)
    (rows : list Translation.t) (row : Translation.t) : bool :=
  existsb (fun r => existsb (fun c => c r row) constraints) rows.

(** The declared widths of [translations.key] ([String(100)]) and
    [translations.lang] ([String(3)]); [text] is [Text], without a declared
    width. *)
Definition KEY_WIDTH : nat := 100.
Definition LANG_WIDTH : nat := 3.

(** What a [VARCHAR(n)] column keeps of a value written under [IGNORE]:
    its first [n] characters. *)
Definition varchar (n : nat) (s : str) : str := firstn n s.

(** [INSERT IGNORE INTO translations (key, lang, text) VALUES (...)]: key
    and language are cut to the width of their columns, and the row is
    appended unless it collides with a stored row on one of the table's
    uniqueness constraints, in which case nothing happens.  The collation
    of the database is outside this model. *)
Definition insert_ignore (constraints : list unique_constraint)
    (rows : list Translation.t) (k l t : str) : list Translation.t :=
  let row := Translation.mk (next_id rows) (varchar KEY_WIDTH k)
                            (varchar LANG_WIDTH l) t in
  if collides constraints rows row then rows else rows ++ [row].

(** ** Exceptions and sessions *)

Inductive exn :=
| HTTPException (status_code : Z) (detail : str)
| Failure (message : str).

(** The server state while a handler runs: what is committed, and what the
    open session sees (its own uncommitted rows included). *)
Record session := mkSession { committed : DB; view : DB }.

Definition M (A : Type) := session -> (exn + A) * session.

Definition ret {A} (a : A) : M A := fun s => (inr a, s).

Definition bind {A B} (m : M A) (f : A -> M B) : M B :=
  fun s => match m s with
           | (inl e, s') => (inl e, s')
           | (inr a, s') => f a s'
           end.

Definition raise {A} (e : exn) : M A := fun s => (inl e, s).

(** [try: body  except Exception as e: handler(e)] *)
Definition try_except {A} (body : M A) (handler : exn -> M A) : M A :=
  fun s => match body s with
           | (inl e, s') => handler e s'
           | r => r
           end.

Declare Scope session_scope.
Delimit Scope session_scope with session.
Notation "x <- m ;; k" := (bind m (fun x => k))
  (at level 61, m at next level, right associativity) : session_scope.
Notation "m ;; k" := (bind m (fun _ => k))
  (at level 61, right associativity) : session_scope.
Local Open Scope session_scope.

(** [async with SessionLocal() as session: body]: the session starts from
    the committed state and whatever it has not committed is gone when the
    block is left, normally or by an exception. *)
Definition with_session {A} (body : M A) : M A :=
  fun s =>
    let (r, s') := body (mkSession (committed s) (committed s)) in
    (r, mkSession (committed s') (committed s')).

(** [await session.commit()] *)
Definition commit : M unit :=
  fun s => (inr tt, mkSession (view s) (view s)).

(** [session.execute(select(Translation))] and its filtered forms. *)
Definition select_translations : M (list Translation.t) :=
  fun s => (inr (translations (view s)), s).

Definition select_languages : M (list Language.t) :=
  fun s => (inr (languages (view s)), s).

(** [select(Language).where(Language.code == c)] with
    [scalar_one_or_none()], and [session.get(Language, c)]. *)
Definition get_language (c : str) : M (option Language.t) :=
  fun s => (inr (find (fun l => str_eqb (Language.code l) c)
                      (languages (view s))), s).

(** [session.execute(insert(Translation).values(...).prefix_with("IGNORE"))] *)
Definition execute_insert_ignore (k l t : str) : M unit :=
  fun s =>
    (inr tt,
     mkSession (committed s)
       (mkDB (insert_ignore Translation_constraints
                (translations (view s)) k l t)
             (languages (view s)))).

(** [for x in xs: body(x)] *)
Fixpoint for_each {A} (xs : list A) (body : A -> M unit) : M unit :=
  match xs with
  | [] => ret tt
  | x :: rest => body x ;; for_each rest body
  end.

(** A handler serving one request on a database: the response or the
    exception that leaves the handler, and the database afterwards. *)
Definition serve {A} (h : M A) (db : DB) : (exn + A) * DB :=
  let (r, s) := h (mkSession db db) in (r, committed s).

(** ** The world outside the repository *)

Section App.

(** [flags.json]: language code to flag glyph. *)
Variable flags : dict str.

(** [str.upper]. *)
Variable upper : str -> str.

(** [str(e)] for an exception. *)
Variable str_of_exn : exn -> str.

(** The chat-completion call of [translate_with_gpt] up to and including
    [response.choices[0].message.content]: the system message is fixed by
    [lang_name] and [emoji], the user message is the formatted batch; the
    call raises or yields the content. *)
Variable chat : forall (lang_name emoji formatted : str), exn + str.

Definition NEWLINE : str := [10%N].
Definition COLON : str := lit ":".
Definition COLON_SPACE : str := lit ": ".
Definition RU : str := lit "ru".
Definition WELCOME : str := lit "welcome".
Definition OK : str := lit "ok".

(** [flags.get(target_lang, target_lang.upper())] *)
Definition flag_of (target_lang : str) : str :=
  match dict_get flags target_lang with
  | Some f => f
  | None => upper target_lang
  end.

(** The loop over the lines of the reply. *)
Definition parse_line (target_lang : str) (result : dict str) (line : str)
    : dict str :=
  if contains COLON line then
    match split_colon line with
    | Some (k, v) =>
        dict_set result (strip k)
          (replace FLAG_TOKEN (flag_of target_lang) (strip v))
    | None => result
    end
  else result.

(** The user message: one line [key: safe_text] per entry of the batch. *)
Definition format_batch (ru_translations : dict str) : str :=
  let prompt_lines :=
    List.map (fun kt => fst kt ++ COLON_SPACE ++ patch_flag flags (snd kt))
             ru_translations in
  join NEWLINE prompt_lines.

(** [translate_with_gpt(ru_translations, target_lang, lang_name, emoji)] *)
Definition translate_with_gpt (ru_translations : dict str)
    (target_lang lang_name emoji : str) : exn + dict str :=
  let formatted := format_batch ru_translations in
  match chat lang_name emoji formatted with
  | inl e => inl e
  | inr content =>
      let raw := strip content in
      inr (fold_left (parse_line target_lang) (splitlines raw) [])
  end.

(** Awaiting a call that may raise. *)
Definition await {A} (r : exn + A) : M A :=
  match r with inl e => raise e | inr a => ret a end.

(** [lang.emoji or ""] *)
Definition emoji_or_empty (l : Language.t) : str :=
  match Language.emoji l with Some e => e | None => [] end.

(** ** [routes/save_translations.py] *)

Record BulkSaveRequest := mkBulkSave {
  save_lang : str;
  save_translations : dict str }.

Record SaveResponse := mkSaved { save_status : str; saved : Z }.

(** The body of both persisting loops: skip blank text, otherwise
    [INSERT IGNORE]. *)
Definition persist (target : str) (entries : dict str) : M unit :=
  for_each entries (fun kt =>
    if is_empty (strip (snd kt)) then ret tt
    else execute_insert_ignore (fst kt) target (snd kt)).

Definition save_translations_handler (data : BulkSaveRequest)
    : M SaveResponse :=
  try_except
    (with_session
       (persist (save_lang data) (save_translations data) ;;
        commit ;;
        ret (mkSaved OK (Z.of_nat (length (save_translations data))))))
    (fun e => raise (HTTPException 500 (str_of_exn e))).

(** ** [routes/gpt_translations.py] *)

Record AddedResponse := mkAdded { added_status : str; added : Z }.

(** The detail of the 404 of [gpt_translation_handler]. *)
Definition LANG_NOT_FOUND : str :=
  [1071; 1079; 1099; 1082; 32; 1085; 1077; 32;
   1085; 1072; 1081; 1076; 1077; 1085]%N.

(** [{row.key: row.text for row in ru_rows}] *)
Definition ru_dict_of (ru_rows : list Translation.t) : dict str :=
  fold_left (fun d row => dict_set d (Translation.key row)
                                     (Translation.text row))
            ru_rows [].

Definition gpt_translation_handler (data_lang : str) : M AddedResponse :=
  try_except
    (with_session
       (lang_row <- get_language data_lang ;;
        match lang_row with
        | None => raise (HTTPException 404 LANG_NOT_FOUND)
        | Some lang =>
            rows <- select_translations ;;
            let ru_rows :=
              filter (fun r => str_eqb (Translation.lang r) RU) rows in
            let ru_dict := ru_dict_of ru_rows in
            translated_dict <-
              await (translate_with_gpt ru_dict (Language.code lang)
                       (Language.name_ru lang) (emoji_or_empty lang)) ;;
            persist (Language.code lang) translated_dict ;;
            commit ;;
            ret (mkAdded OK (Z.of_nat (length translated_dict)))
        end))
    (fun e => raise (HTTPException 500 (str_of_exn e))).

(** ** [main.py]: the translations page *)

(** [defaultdict]: a missing key reads as the default. *)
Definition dict_get_default {V} (dflt : V) (d : dict V) (k : str) : V :=
  match dict_get d k with Some v => v | None => dflt end.

(** [translations[k][l] = text] on a [defaultdict(dict)]. *)
Definition set2 (tr : dict (dict str)) (k l text : str) : dict (dict str) :=
  dict_set tr k (dict_set (dict_get_default [] tr k) l text).

(** [s.add(x)] *)
Definition set_add (x : str) (s : list str) : list str :=
  if set_mem x s then s else s ++ [x].

(** Order of Python strings: code point by code point. *)
Fixpoint str_compare (a b : str) : comparison :=
  match a, b with
  | [], [] => Eq
  | [], _ :: _ => Lt
  | _ :: _, [] => Gt
  | x :: a', y :: b' =>
      match N.compare x y with
      | Eq => str_compare a' b'
      | c => c
      end
  end.

(** The sort key [(l.code != "ru", l.name_ru)] and its tuple order. *)
Definition sort_key (l : Language.t) : bool * str :=
  (negb (str_eqb (Language.code l) RU), Language.name_ru l).

Definition key_le (a b : bool * str) : bool :=
  match fst a, fst b with
  | false, true => true
  | true, false => false
  | _, _ => match str_compare (snd a) (snd b) with Gt => false | _ => true end
  end.

Fixpoint insert_sorted (x : Language.t) (l : list Language.t)
    : list Language.t :=
  match l with
  | [] => [x]
  | y :: rest =>
      if key_le (sort_key x) (sort_key y) then x :: l
      else y :: insert_sorted x rest
  end.

(** [sorted(langs, key=...)]: stable. *)
Definition sorted (langs : list Language.t) : list Language.t :=
  fold_right insert_sorted [] langs.

(** What the template receives. *)
Record Context := mkContext {
  ctx_translations : dict (dict str);
  ctx_langs : list Language.t;
  ctx_missing_langs : list Language.t;
  ctx_selected_lang : option Language.t;
  ctx_temp_translations : dict str;
  ctx_total_keys : Z;
  ctx_filled_count : dict Z;
  ctx_missing_count : dict Z }.

Definition INTERNAL_SERVER_ERROR : str := lit "Internal Server Error".

(** [translations[row.key][row.lang] = row.text] over all rows. *)
Definition group_rows (rows : list Translation.t) : dict (dict str) :=
  fold_left (fun tr row => set2 tr (Translation.key row)
                                (Translation.lang row) (Translation.text row))
            rows [].

Definition used_codes (rows : list Translation.t) : list str :=
  fold_left (fun s row => set_add (Translation.lang row) s) rows [].

(** [[k for k in translations if k != "welcome"]] *)
Definition filtered_keys_of (tr : dict (dict str)) : list str :=
  filter (fun k => negb (str_eqb k WELCOME)) (dict_keys tr).

(** [sum(1 for k in filtered_keys if code in translations[k])] *)
Definition filled_for (tr : dict (dict str)) (filtered_keys : list str)
    (code : str) : Z :=
  Z.of_nat (length (filter (fun k => dict_mem (dict_get_default [] tr k) code)
                           filtered_keys)).

(** [show_translations(request)]; [add] is
    [request.query_params.get("add")].  The result is the context handed
    to the template; the login check in front of the route and the
    rendering itself are not part of it. *)
Definition show_translations (add : option str) : M Context :=
  try_except
    (read <- with_session
               (translations_raw <- select_translations ;;
                all_langs <- select_languages ;;
                ret (translations_raw, all_langs)) ;;
     let translations_raw := fst read in
     let all_langs := snd read in
     let translations := group_rows translations_raw in
     let used_lang_codes := used_codes translations_raw in
     let filtered_keys := filtered_keys_of translations in
     let total_keys := Z.of_nat (length filtered_keys) in
     let selected_lang :=
       match add with
       | Some selected_code =>
           find (fun l => str_eqb (Language.code l) selected_code) all_langs
       | None => None
       end in
     let langs :=
       match selected_lang with
       | Some sl =>
           filter (fun l => str_eqb (Language.code l) RU) all_langs
           ++ (if negb (str_eqb (Language.code sl) RU) then [sl] else [])
       | None =>
           filter (fun l => set_mem (Language.code l) used_lang_codes)
                  all_langs
       end in
     let langs := sorted langs in
     let filled_count :=
       fold_left (fun d l => dict_set d (Language.code l)
                    (filled_for translations filtered_keys (Language.code l)))
                 langs [] in
     let missing_count :=
       List.map (fun cf => (fst cf, (total_keys - snd cf)%Z)) filled_count in
     let missing_langs :=
       filter (fun l => negb (set_mem (Language.code l) used_lang_codes))
              all_langs in
     match selected_lang with
     | Some sl =>
         let ru_texts :=
           fold_left
             (fun d k =>
                match dict_get (dict_get_default [] translations k) RU with
                | Some t => dict_set d k t
                | None => d
                end)
             filtered_keys [] in
         gpt_translations <-
           await (translate_with_gpt ru_texts (Language.code sl)
                    (Language.name_ru sl) (emoji_or_empty sl)) ;;
         let merged :=
           fold_left (fun tr kv => set2 tr (fst kv) (Language.code sl) (snd kv))
                     gpt_translations translations in
         ret (mkContext merged langs missing_langs selected_lang
                gpt_translations total_keys filled_count missing_count)
     | None =>
         ret (mkContext translations langs missing_langs selected_lang
                [] total_keys filled_count missing_count)
     end)
    (fun e => raise (HTTPException 500 INTERNAL_SERVER_ERROR)).

(** ** [main.py]: translating what is missing *)

(** [existing[r.key].add(r.lang)] over all rows. *)
Definition existing_of (rows : list Translation.t) : dict (list str) :=
  fold_left (fun ex r =>
               dict_set ex (Translation.key r)
                 (set_add (Translation.lang r)
                    (dict_get_default [] ex (Translation.key r))))
            rows [].

(** [[key for key, langs in existing.items()
      if "ru" in langs and lang not in langs]] *)
Definition missing_keys_of (rows : list Translation.t) (lang : str)
    : list str :=
  List.map fst
    (filter (fun kl => set_mem RU (snd kl) && negb (set_mem lang (snd kl)))
            (existing_of rows)).

(** The first [ru] row of every missing key. *)
Definition ru_texts_of (rows : list Translation.t) (missing_keys : list str)
    : dict str :=
  fold_left
    (fun d k =>
       match find (fun r => str_eqb (Translation.key r) k
                            && str_eqb (Translation.lang r) RU) rows with
       | Some r => dict_set d k (Translation.text r)
       | None => d
       end)
    missing_keys [].

Definition language_not_found (lang : str) : str :=
  lit "Language '" ++ lang ++ lit "' not found".

(** [translate_missing(lang)]; the response is [{"translations": ...}]. *)
Definition translate_missing (lang : str) : M (dict str) :=
  read <- with_session
            (rows <- select_translations ;;
             lang_row <- get_language lang ;;
             match lang_row with
             | None => raise (HTTPException 404 (language_not_found lang))
             | Some l => ret (rows, (Language.name_ru l, emoji_or_empty l))
             end) ;;
  let rows := fst read in
  let lang_name := fst (snd read) in
  let emoji := snd (snd read) in
  let missing_keys := missing_keys_of rows lang in
  let ru_texts := ru_texts_of rows missing_keys in
  await (translate_with_gpt ru_texts lang lang_name emoji).

End App.


(** ** [main.py]: the manual edit *)

Record UpdateRequest := mkUpdate {
  upd_key : str; upd_lang : str; upd_text : str }.

(** What [scalar_one_or_none()] raises on more than one row. *)
Definition MULTIPLE_RESULTS : exn :=
  Failure (lit "Multiple rows were found when one or none was required").

(** [result.scalar_one_or_none()] *)
Definition scalar_one_or_none {A} (rows : list A) : exn + option A :=
  match rows with
  | [] => inr None
  | [r] => inr (Some r)
  | _ :: _ :: _ => inl MULTIPLE_RESULTS
  end.

(** [select(Translation).where(Translation.key == k, Translation.lang == l)] *)
Definition select_translation_where (k l : str) : M (list Translation.t) :=
  fun s =>
    (inr (filter (fun r => str_eqb (Translation.key r) k
                           && str_eqb (Translation.lang r) l)
                 (translations (view s))), s).

(** [translation.text = t] on a loaded row: the unit of work writes it back
    by primary key. *)
Definition set_text (row : Translation.t) (t : str) : M unit :=
  fun s =>
    (inr tt,
     mkSession (committed s)
       (mkDB (List.map
                (fun r => if Z.eqb (Translation.id r) (Translation.id row)
                          then Translation.mk (Translation.id r)
                                 (Translation.key r) (Translation.lang r) t
                          else r)
                (translations (view s)))
             (languages (view s)))).

(** [async with session.begin(): body]: commit when the block is left
    normally, roll back when it is left by an exception. *)
Definition with_begin {A} (body : M A) : M A :=
  fun s =>
    match body s with
    | (inr a, s') => (inr a, mkSession (view s') (view s'))
    | (inl e, s') => (inl e, mkSession (committed s') (committed s'))
    end.

Definition TRANSLATION_NOT_FOUND : str := lit "Translation not found".
Definition UPDATED : str := lit "updated".

(** [update_translation(data)]; the response is [{"status": "updated"}].
    [except HTTPException: raise] comes before the blanket handler. *)
Definition update_translation (data : UpdateRequest) : M str :=
  try_except
    (with_session
       (with_begin
          (rows <- select_translation_where (upd_key data) (upd_lang data) ;;
           translation <- await (scalar_one_or_none rows) ;;
           match translation with
           | None => raise (HTTPException 404 TRANSLATION_NOT_FOUND)
           | Some tr => set_text tr (upd_text data)
           end)) ;;
     ret UPDATED)
    (fun e =>
       match e with
       | HTTPException _ _ => raise e
       | Failure _ => raise (HTTPException 500 INTERNAL_SERVER_ERROR)
       end).

(** ** Specification vocabulary *)

(** [replaced_all old new text out]: [out] is [text] with every occurrence
    of [old], found leftmost first and without overlap, turned into [new],
    and every other character kept. *)
Inductive replaced_all (old new : str) : str -> str -> Prop :=
| replaced_done : replaced_all old new [] []
| replaced_hit rest out :
    replaced_all old new rest out ->
    replaced_all old new (old ++ rest) (new ++ out)
| replaced_keep c rest out :
    startswith old (c :: rest) = false ->
    replaced_all old new rest out ->
    replaced_all old new (c :: rest) (c :: out).

(** A marker qualifies in a text when it follows a space somewhere or ends
    the text: the two tests of [patch_flag]. *)
Definition qualifies (flag text : str) : bool :=
  contains (SPACE ++ flag) text || endswith text flag.

(** The rows a persisting loop leaves in the session, as a fold. *)
Definition persist_rows (target : str) (entries : dict str)
    (rows : list Translation.t) : list Translation.t :=
  fold_left
    (fun rows kt =>
       if is_empty (strip (snd kt)) then rows
       else insert_ignore Translation_constraints rows (fst kt) target (snd kt))
    entries rows.

Definition nonblank (kt : str * str) : bool :=
  negb (is_empty (strip (snd kt))).

(** A row fits its columns: what every stored row does. *)
Definition fits (r : Translation.t) : Prop :=
  (length (Translation.key r) <= KEY_WIDTH)%nat /\
  (length (Translation.lang r) <= LANG_WIDTH)%nat.

(** Rows of the catalogue for a key and a language. *)
Definition has_entry (rows : list Translation.t) (k l : str) : Prop :=
  exists r, In r rows /\ Translation.key r = k /\ Translation.lang r = l.

(** A row of the source language. *)
Definition is_ru (r : Translation.t) : bool := str_eqb (Translation.lang r) RU.

(** [has_entry], decided. *)
Definition has_entryb (rows : list Translation.t) (k l : str) : bool :=
  existsb (fun r => str_eqb (Translation.key r) k
                    && str_eqb (Translation.lang r) l) rows.



(** A reply is unparseable when none of its lines has a colon. *)
Definition unparseable (content : str) : Prop :=
  Forall (fun line => contains COLON line = false) (splitlines (strip content)).

(** ** Sample data *)

(** Regional-indicator pairs: the flags of Russia and of Great Britain. *)
Definition RU_FLAG : str := [127479; 127482]%N.
Definition GB_FLAG : str := [127468; 127463]%N.

Definition demo_flags : dict str := [(lit "en", GB_FLAG); (lit "ru", RU_FLAG)].

(** Stand-ins for [str.upper] and [str(e)] where their value plays no part. *)
Definition demo_upper : str -> str := fun s => s.
Definition no_detail : exn -> str := fun _ => [].

Definition lang_ru : Language.t :=
  Language.mk (lit "ru") (lit "Russian") (lit "R") (Some RU_FLAG) true.
Definition lang_en : Language.t :=
  Language.mk (lit "en") (lit "English") (lit "A") (Some GB_FLAG) true.
Definition lang_pl : Language.t :=
  Language.mk (lit "pl") (lit "Polski") (lit "P") None true.

(** Source keys welcome, greeting and bye; English has greeting only. *)
Definition demo_rows : list Translation.t :=
  [Translation.mk 1 (lit "welcome") (lit "ru") (lit "W");
   Translation.mk 2 (lit "greeting") (lit "ru") (lit "G");
   Translation.mk 3 (lit "bye") (lit "ru") (lit "B");
   Translation.mk 4 (lit "greeting") (lit "en") (lit "Hello")].

Definition demo_db : DB := mkDB demo_rows [lang_en; lang_ru; lang_pl].

(** One stored pair. *)
Definition hello_db : DB :=
  mkDB [Translation.mk 1 (lit "greeting") (lit "en") (lit "Hello")] [].

(** A key that exists for English only. *)
Definition orphan_db : DB :=
  mkDB [Translation.mk 1 (lit "a") (lit "ru") (lit "A");
        Translation.mk 2 (lit "b") (lit "en") (lit "B")]
       [lang_en; lang_ru].

(** A reply of three lines; the last has no text after the colon. *)
Definition chat_three_lines : str -> str -> str -> exn + str :=
  fun _ _ _ =>
    inr (lit "greeting: Hi" ++ NEWLINE ++ lit "bye: {flag}" ++ NEWLINE
         ++ lit "x:").

(** A reply without a single [key: text] line. *)
Definition chat_sorry : str -> str -> str -> exn + str :=
  fun _ _ _ => inr (lit "Sorry, I cannot help with that").

(** A call that raises. *)
Definition chat_down : str -> str -> str -> exn + str :=
  fun _ _ _ => inl (Failure (lit "connection refused")).

(** ** Further vocabulary *)

(** The [where] clause of the edit: the row is of key [k] and language [l]. *)
Definition matches (k l : str) (r : Translation.t) : bool :=
  str_eqb (Translation.key r) k && str_eqb (Translation.lang r) l.

(** The row with its text replaced. *)
Definition with_text (t : str) (r : Translation.t) : Translation.t :=
  Translation.mk (Translation.id r) (Translation.key r) (Translation.lang r) t.

(** The table after [set_text]. *)
Definition write_text (row : Translation.t) (t : str)
    (rows : list Translation.t) : list Translation.t :=
  List.map (fun r => if Z.eqb (Translation.id r) (Translation.id row)
                     then with_text t r else r) rows.

(** [translations[k][l]] as the template reads it. *)
Definition shown (tr : dict (dict str)) (k l : str) : option str :=
  dict_get (dict_get_default [] tr k) l.

(** The batch of the preview: the dictionary comprehension over
    [filtered_keys] in [show_translations]. *)
Definition preview_batch (rows : list Translation.t) : dict str :=
  let tr := group_rows rows in
  fold_left
    (fun d k =>
       match dict_get (dict_get_default [] tr k) RU with
       | Some t => dict_set d k t
       | None => d
       end)
    (filtered_keys_of tr) [].

(** The loop that merges the reply into the dictionary of the page. *)
Definition merge_preview (c : str) (g : dict str) (tr : dict (dict str))
    : dict (dict str) :=
  fold_left (fun tr kv => set2 tr (fst kv) c (snd kv)) g tr.

(** The text [translate_missing] takes for a key: that of the first
    Russian row of the key. *)
Definition first_ru_text (rows : list Translation.t) (k : str) : option str :=
  option_map Translation.text (find (matches k RU) rows).

(** [next((l for l in all_langs if l.code == selected_code), None)] *)
Definition selected_of (add : option str) (all_langs : list Language.t)
    : option Language.t :=
  match add with
  | Some selected_code =>
      find (fun l => str_eqb (Language.code l) selected_code) all_langs
  | None => None
  end.

(** The languages chosen for display, before sorting. *)
Definition selection (selected : option Language.t) (used : list str)
    (all_langs : list Language.t) : list Language.t :=
  match selected with
  | Some sl =>
      filter (fun l => str_eqb (Language.code l) RU) all_langs
      ++ (if negb (str_eqb (Language.code sl) RU) then [sl] else [])
  | None => filter (fun l => set_mem (Language.code l) used) all_langs
  end.

(** The order of the sort key, as a relation on languages. *)
Definition lang_le (a b : Language.t) : Prop :=
  key_le (sort_key a) (sort_key b) = true.

(** What a stored row says, without its id. *)
Definition content (r : Translation.t) : str * (str * str) :=
  (Translation.key r, (Translation.lang r, Translation.text r)).

(** What the row stored for an entry says: key and language as the
    columns keep them, the text as sent. *)
Definition stored_content (target : str) (kt : str * str)
    : str * (str * str) :=
  (varchar KEY_WIDTH (fst kt), (varchar LANG_WIDTH target, snd kt)).

(** The key and the language of a row. *)
Definition key_lang (r : Translation.t) : str * str :=
  (Translation.key r, Translation.lang r).

(** The token after its opening brace. *)
Definition FLAG_TAIL : str := lit "flag}".

(** A catalogue with nothing missing for English. *)
Definition full_db : DB :=
  mkDB [Translation.mk 1 (lit "greeting") (lit "ru") (lit "G");
        Translation.mk 2 (lit "greeting") (lit "en") (lit "Hello")]
       [lang_en; lang_ru].


(** No character of the string is a colon. *)
Definition no_colon (s : str) : bool := forallb (fun c => negb (c =? 58)%N) s.

(** A key of 101 characters, one more than the key column holds. *)
Definition long_key : str := repeat 97%N 101.

(** A capability that serves one request only: asked to put the three
    source lines of [demo_rows] into the language named ["A"], with the
    flag of Great Britain, it offers ["Hi"] for the greeting; any other
    request fails. *)
Definition chat_probe : str -> str -> str -> exn + str :=
  fun lang_name emoji formatted =>
    if str_eqb lang_name (lit "A") && str_eqb emoji GB_FLAG &&
       str_eqb formatted
         (lit "welcome: W" ++ NEWLINE ++ lit "greeting: G" ++ NEWLINE
          ++ lit "bye: B")
    then inr (lit "greeting: Hi")
    else inl (Failure (lit "unexpected request")).

(** ** Strings and dictionaries: basic facts *)

Lemma str_eqb_eq (a b : str) : str_eqb a b = true <-> a = b.
Proof.
  revert b; induction a as [|x a IH]; intros [|y b]; simpl;
    try (split; (congruence || reflexivity)).
  rewrite andb_true_iff, N.eqb_eq, IH.
  split; [intros [-> ->]; reflexivity | intros H; inversion H; auto].
Qed.

Lemma str_eqb_refl (a : str) : str_eqb a a = true.
Proof. apply str_eqb_eq; reflexivity. Qed.

Lemma str_eqb_neq (a b : str) : str_eqb a b = false <-> a <> b.
Proof.
  split.
  - intros H E. apply str_eqb_eq in E. congruence.
  - intros H. destruct (str_eqb a b) eqn:E; [apply str_eqb_eq in E; contradiction | reflexivity].
Qed.

Lemma startswith_app (old rest : str) : startswith old (old ++ rest) = true.
Proof.
  induction old as [|x old IH]; simpl; [reflexivity|].
  now rewrite N.eqb_refl, IH.
Qed.

Lemma startswith_split (old text : str) :
  startswith old text = true -> exists rest, text = old ++ rest.
Proof.
  revert text; induction old as [|x old IH]; intros text H.
  - exists text; reflexivity.
  - destruct text as [|y text]; simpl in H; [discriminate|].
    apply andb_true_iff in H as [Hx Ht]. apply N.eqb_eq in Hx; subst y.
    destruct (IH _ Ht) as [rest ->]. exists rest; reflexivity.
Qed.

Lemma replace_from_skip (old new pre rest : str) :
  replace_from old new (length pre) (pre ++ rest) = replace_from old new 0 rest.
Proof.
  induction pre as [|c pre IH]; simpl; [reflexivity | exact IH].
Qed.

Lemma replace_from_replaced_all (old new : str) :
  old <> [] ->
  forall n text, (length text <= n)%nat ->
    replaced_all old new text (replace_from old new 0 text).
Proof.
  intros Hold n; induction n as [|n IH]; intros text Hlen.
  - destruct text; [constructor | simpl in Hlen; lia].
  - destruct text as [|c rest]; [constructor|].
    cbn [replace_from].
    destruct (startswith old (c :: rest)) eqn:Hs.
    + destruct (startswith_split _ _ Hs) as [tail Htail].
      destruct old as [|x old']; [congruence|].
      simpl in Htail. inversion Htail; subst c rest.
      replace (length (x :: old') - 1)%nat with (length old') by (simpl; lia).
      rewrite replace_from_skip.
      change (x :: old' ++ tail) with ((x :: old') ++ tail).
      apply replaced_hit. apply IH.
      simpl in Hlen. rewrite length_app in Hlen. lia.
    + apply replaced_keep; [exact Hs|]. apply IH. simpl in Hlen; lia.
Qed.

Lemma replace_replaced_all (old new text : str) :
  old <> [] -> replaced_all old new text (replace old new text).
Proof.
  intros Hold. destruct old as [|x old']; [congruence|].
  unfold replace. eapply replace_from_replaced_all; [exact Hold | apply le_n].
Qed.

(** [replaced_all] leaves no choice: the result is determined. *)
Lemma replaced_all_functional (old new text out1 out2 : str) :
  old <> [] ->
  replaced_all old new text out1 -> replaced_all old new text out2 ->
  out1 = out2.
Proof.
  intros Hne H1. revert out2.
  induction H1 as [|rest out Hrest IH|c rest out Hs Hrest IH]; intros out2 H2.
  - inversion H2 as [|rest2 o2 Hr2 Heq|c2 rest2 o2 Hs2 Hr2 Heq]; subst.
    + reflexivity.
    + destruct old; [congruence | discriminate].
  - inversion H2 as [Heq|rest2 o2 Hr2 Heq|c2 rest2 o2 Hs2 Hr2 Heq]; subst.
    + destruct old; [congruence | discriminate].
    + apply app_inv_head in Heq. subst rest2. f_equal. apply IH. exact Hr2.
    + rewrite Heq, startswith_app in Hs2. discriminate.
  - inversion H2 as [|rest2 o2 Hr2 Heq|c2 rest2 o2 Hs2 Hr2 Heq]; subst.
    + rewrite <- Heq, startswith_app in Hs. discriminate.
    + f_equal. apply IH. exact Hr2.
Qed.

(** ** The placeholder codec *)

(** When no marker of the table qualifies, the text comes back as it is. *)
Lemma patch_flag_no_match (flags : dict str) (text : str) :
  (forall c f, In (c, f) flags -> qualifies f text = false) ->
  patch_flag flags text = text.
Proof.
  induction flags as [|[c f] rest IH]; intros H; cbn [patch_flag];
    [reflexivity|].
  assert (Hq : qualifies f text = false) by (apply (H c); left; reflexivity).
  unfold qualifies in Hq. apply orb_false_iff in Hq as [-> ->].
  apply IH. intros c' f' Hin. apply (H c'). right; exact Hin.
Qed.

(** C4, as stated, fails: the text holds the Russian flag after a space
    twice, and [patch_flag] turns both places into the token; the marker is
    left nowhere in the result. *)
Lemma patch_flag_first_only_counterexample :
  let flags := [(lit "ru", RU_FLAG)] in
  let text := lit "a " ++ RU_FLAG ++ lit " b " ++ RU_FLAG in
  patch_flag flags text = lit "a {flag} b {flag}" /\
  patch_flag flags text <> lit "a {flag} b " ++ RU_FLAG /\
  contains RU_FLAG (patch_flag flags text) = false.
Proof.
  cbv zeta. repeat split; try (vm_compute; reflexivity).
  vm_compute. discriminate.
Qed.

(** C4, amended: [patch_flag] acts on the first marker of the table, in
    table order, that follows a space somewhere in the text or ends it.
    Every occurrence of space-plus-marker becomes space-plus-token; when
    the marker only ends the text, every occurrence of the marker becomes
    the token.  All other characters are kept. *)
Theorem patch_flag_first_marker_everywhere
    (flags before after : dict str) (code flag text : str) :
  flags = before ++ (code, flag) :: after ->
  (forall c f, In (c, f) before -> qualifies f text = false) ->
  qualifies flag text = true ->
  flag <> [] ->
  (contains (SPACE ++ flag) text = true ->
   replaced_all (SPACE ++ flag) SPACE_FLAG_TOKEN text (patch_flag flags text)) /\
  (contains (SPACE ++ flag) text = false ->
   replaced_all flag FLAG_TOKEN text (patch_flag flags text)).
Proof.
  intros -> Hbefore Hq Hne.
  assert (Hstep : patch_flag (before ++ (code, flag) :: after) text =
                  patch_flag ((code, flag) :: after) text).
  { clear Hq. induction before as [|[c f] rest IH]; [reflexivity|].
    cbn [app patch_flag]. assert (Hf : qualifies f text = false)
      by (apply (Hbefore c); left; reflexivity).
    unfold qualifies in Hf. apply orb_false_iff in Hf as [-> ->].
    apply IH. intros c' f' Hin. apply (Hbefore c'). right; exact Hin. }
  rewrite Hstep. cbn [patch_flag]. split; intros Hc; rewrite Hc.
  - apply replace_replaced_all. discriminate.
  - unfold qualifies in Hq. rewrite Hc in Hq. simpl in Hq. rewrite Hq.
    apply replace_replaced_all. exact Hne.
Qed.

Lemma patch_flag_first_marker_everywhere_witness :
  let flags := [(lit "en", GB_FLAG); (lit "ru", RU_FLAG)] in
  let text := lit "a " ++ RU_FLAG ++ lit " b " ++ RU_FLAG in
  replaced_all (SPACE ++ RU_FLAG) SPACE_FLAG_TOKEN text (patch_flag flags text).
Proof.
  cbv zeta.
  refine (proj1 (@patch_flag_first_marker_everywhere
            [(lit "en", GB_FLAG); (lit "ru", RU_FLAG)]
            [(lit "en", GB_FLAG)] [] (lit "ru") RU_FLAG
            (lit "a " ++ RU_FLAG ++ lit " b " ++ RU_FLAG) eq_refl _ _ _) _).
  - intros c f [H|[]]. inversion H; subst. vm_compute. reflexivity.
  - vm_compute. reflexivity.
  - discriminate.
  - vm_compute. reflexivity.
Defined.

(** ** Persistence: [INSERT IGNORE] on the declared table *)

Lemma varchar_fits (n : nat) (s : str) :
  (length s <= n)%nat -> varchar n s = s.
Proof. apply firstn_all2. Qed.


Lemma next_id_above (rows : list Translation.t) (r : Translation.t) :
  In r rows -> (Translation.id r < next_id rows)%Z.
Proof.
  unfold next_id. induction rows as [|x rows IH]; cbn [fold_right In];
    [tauto|].
  intros [->|Hin]; [lia | specialize (IH Hin); lia].
Qed.

(** The fresh primary key never collides, and the table has no other
    constraint: the row is always stored. *)
Lemma insert_ignore_declared (rows : list Translation.t) (k l t : str) :
  insert_ignore Translation_constraints rows k l t =
  rows ++ [Translation.mk (next_id rows) (varchar KEY_WIDTH k)
                          (varchar LANG_WIDTH l) t].
Proof.
  unfold insert_ignore.
  destruct (collides _ _ _) eqn:Hc; [|reflexivity].
  unfold collides in Hc. apply existsb_exists in Hc as [r [Hin Hr]].
  simpl in Hr. rewrite orb_false_r in Hr. unfold same_id in Hr. simpl in Hr.
  apply Z.eqb_eq in Hr. pose proof (next_id_above _ _ Hin). lia.
Qed.

(** With a uniqueness constraint on [(key, lang)] the same statement would
    have been the no-op the [IGNORE] prefix is there for. *)
Lemma insert_ignore_unique_key_lang (rows : list Translation.t)
    (old : Translation.t) (t : str) :
  In old rows -> fits old ->
  insert_ignore [same_id; same_key_lang] rows
    (Translation.key old) (Translation.lang old) t = rows.
Proof.
  intros Hin [Hk Hl].
  assert (H : collides [same_id; same_key_lang] rows
                (Translation.mk (next_id rows)
                   (varchar KEY_WIDTH (Translation.key old))
                   (varchar LANG_WIDTH (Translation.lang old)) t) = true).
  { rewrite (varchar_fits _ Hk), (varchar_fits _ Hl). unfold collides. apply existsb_exists. exists old. split; [exact Hin|].
    cbn [existsb]. unfold same_key_lang. cbn [Translation.key Translation.lang].
    rewrite !str_eqb_refl. simpl. now rewrite orb_true_r. }
  unfold insert_ignore. cbv zeta. rewrite H. reflexivity.
Qed.

Lemma persist_rows_cons (target : str) (kt : str * str) (entries : dict str)
    (rows : list Translation.t) :
  persist_rows target (kt :: entries) rows =
  persist_rows target entries
    (if is_empty (strip (snd kt)) then rows
     else insert_ignore Translation_constraints rows (fst kt) target (snd kt)).
Proof. reflexivity. Qed.

(** The loop only appends, one row per entry whose text is not blank. *)
Lemma persist_rows_appends (target : str) (entries : dict str) :
  forall rows, exists extra,
    persist_rows target entries rows = rows ++ extra /\
    length extra = length (filter nonblank entries).
Proof.
  induction entries as [|kt entries IH]; intros rows.
  - exists []. split; [symmetry; apply app_nil_r | reflexivity].
  - rewrite persist_rows_cons. cbn [filter]. unfold nonblank at 1.
    destruct (is_empty (strip (snd kt))); cbn [negb].
    + apply IH.
    + rewrite insert_ignore_declared.
      destruct (IH (rows ++ [Translation.mk (next_id rows)
                                (varchar KEY_WIDTH (fst kt))
                                (varchar LANG_WIDTH target) (snd kt)]))
        as [extra [He Hl]].
      exists (Translation.mk (next_id rows) (varchar KEY_WIDTH (fst kt))
                (varchar LANG_WIDTH target) (snd kt) :: extra).
      split; [rewrite He, <- app_assoc; reflexivity | simpl; congruence].
Qed.

Lemma persist_run (target : str) (entries : dict str) (s : session) :
  persist target entries s =
  (inr tt, mkSession (committed s)
             (mkDB (persist_rows target entries (translations (view s)))
                   (languages (view s)))).
Proof.
  revert s. unfold persist.
  induction entries as [|kt entries IH]; intros s.
  - simpl. unfold ret. destruct s as [c [t l]]; reflexivity.
  - cbn [for_each]. unfold bind at 1.
    rewrite persist_rows_cons.
    destruct (is_empty (strip (snd kt))).
    + unfold ret at 1. apply IH.
    + unfold execute_insert_ignore. rewrite IH. reflexivity.
Qed.

Lemma save_translations_handler_serve (str_of_exn : exn -> str)
    (data : BulkSaveRequest) (db : DB) :
  serve (save_translations_handler str_of_exn data) db =
  (inr (mkSaved OK (Z.of_nat (length (save_translations data)))),
   mkDB (persist_rows (save_lang data) (save_translations data) (translations db))
        (languages db)).
Proof.
  unfold serve, save_translations_handler, try_except, with_session, bind.
  rewrite persist_run. reflexivity.
Qed.

Lemma gpt_translation_handler_serve (flags : dict str) (upper : str -> str)
    (str_of_exn : exn -> str) (chat : str -> str -> str -> exn + str)
    (data_lang : str) (db : DB) :
  serve (gpt_translation_handler flags upper str_of_exn chat data_lang) db =
  match find (fun l => str_eqb (Language.code l) data_lang) (languages db) with
  | None =>
      (inl (HTTPException 500 (str_of_exn (HTTPException 404 LANG_NOT_FOUND))),
       db)
  | Some lang =>
      match translate_with_gpt flags upper chat
              (ru_dict_of (filter is_ru (translations db)))
              (Language.code lang) (Language.name_ru lang)
              (emoji_or_empty lang) with
      | inl e => (inl (HTTPException 500 (str_of_exn e)), db)
      | inr d =>
          (inr (mkAdded OK (Z.of_nat (length d))),
           mkDB (persist_rows (Language.code lang) d (translations db))
                (languages db))
      end
  end.
Proof.
  unfold serve, gpt_translation_handler, try_except, with_session.
  unfold bind at 1. unfold get_language. cbn [view committed].
  destruct (find _ (languages db)) as [lang|]; [|reflexivity].
  unfold bind at 1. unfold select_translations. cbn [view committed].
  fold is_ru. unfold bind at 1.
  destruct (translate_with_gpt _ _ _ _ _ _ _) as [e|d]; [reflexivity|].
  unfold await, ret at 1. unfold bind. rewrite persist_run. reflexivity.
Qed.

(** C1: the code at a pair that is already stored.  Committing a non-blank
    text for a (key, language) pair that has a row does not leave the
    table alone: [translations] declares no uniqueness on (key, lang), so
    [INSERT IGNORE] stores a second row, with key and language cut to the
    width of their columns; for a stored row, which fits its columns, that
    is a second row for the very pair. *)
Theorem save_adds_row_for_stored_pair (str_of_exn : exn -> str) (db : DB)
    (old : Translation.t) (new_text : str) :
  In old (translations db) ->
  is_empty (strip new_text) = false ->
  let out := serve (save_translations_handler str_of_exn
                      (mkBulkSave (Translation.lang old)
                                  [(Translation.key old, new_text)])) db in
  out =
  (inr (mkSaved OK 1),
   mkDB (translations db ++
           [Translation.mk (next_id (translations db))
              (varchar KEY_WIDTH (Translation.key old))
              (varchar LANG_WIDTH (Translation.lang old)) new_text])
        (languages db)) /\
  (fits old ->
   out =
   (inr (mkSaved OK 1),
    mkDB (translations db ++
            [Translation.mk (next_id (translations db)) (Translation.key old)
                            (Translation.lang old) new_text])
         (languages db))).
Proof.
  intros _ Hblank. cbv zeta. rewrite save_translations_handler_serve.
  cbn [save_translations save_lang length].
  unfold persist_rows. cbn [fold_left snd fst]. rewrite Hblank.
  rewrite insert_ignore_declared. split; [reflexivity|].
  intros [Hk Hl]. now rewrite (varchar_fits _ Hk), (varchar_fits _ Hl).
Qed.

Lemma save_adds_row_for_stored_pair_witness :
  serve (save_translations_handler no_detail
           (mkBulkSave (lit "en") [(lit "greeting", lit "Hi")])) hello_db =
  (inr (mkSaved OK 1),
   mkDB [Translation.mk 1 (lit "greeting") (lit "en") (lit "Hello");
         Translation.mk 2 (lit "greeting") (lit "en") (lit "Hi")] []).
Proof.
  apply (@save_adds_row_for_stored_pair no_detail hello_db
           (Translation.mk 1 (lit "greeting") (lit "en") (lit "Hello"))
           (lit "Hi")).
  - left; reflexivity.
  - vm_compute; reflexivity.
  - split; vm_compute; lia.
Defined.



(** On the page the later row of a pair is the one shown:
    [translations[row.key][row.lang] = row.text] runs over the rows in
    order. *)
Example second_row_is_the_one_shown :
  group_rows
    [Translation.mk 1 (lit "greeting") (lit "en") (lit "Hello");
     Translation.mk 2 (lit "greeting") (lit "en") (lit "Hi")] =
  [(lit "greeting", [(lit "en", lit "Hi")])].
Proof. vm_compute. reflexivity. Qed.




(** C3, as stated, fails: the second commit of the same mapping reports
    one again, not zero. *)
Lemma commit_twice_counterexample :
  let data := mkBulkSave (lit "en") [(lit "a", lit "x")] in
  let first := serve (save_translations_handler no_detail data) (mkDB [] []) in
  let second := serve (save_translations_handler no_detail data) (snd first) in
  fst first = inr (mkSaved OK 1) /\
  fst second = inr (mkSaved OK 1) /\
  fst second <> inr (mkSaved OK 0).
Proof. cbv zeta. repeat split; vm_compute; (reflexivity || discriminate). Qed.

(** C3, amended: the second commit of a mapping answers as the first did,
    with the number of entries of the mapping, and every row the first
    left is still there, in place and with its text; the languages are
    untouched. *)
Theorem commit_twice_same_answer (str_of_exn : exn -> str)
    (data : BulkSaveRequest) (db : DB) :
  let first := serve (save_translations_handler str_of_exn data) db in
  let second := serve (save_translations_handler str_of_exn data) (snd first) in
  fst second = fst first /\
  fst second = inr (mkSaved OK (Z.of_nat (length (save_translations data)))) /\
  (exists extra, translations (snd second) = translations (snd first) ++ extra) /\
  languages (snd second) = languages (snd first).
Proof.
  cbv zeta. rewrite !save_translations_handler_serve. cbn [fst snd translations languages].
  repeat split.
  destruct (persist_rows_appends (save_lang data) (save_translations data)
              (persist_rows (save_lang data) (save_translations data) (translations db)))
    as [extra [He _]].
  exists extra. exact He.
Qed.

(** ** Dictionaries built by loops *)

Lemma dict_get_set {V} (d : dict V) (k k' : str) (v : V) :
  dict_get (dict_set d k v) k' =
  if str_eqb k k' then Some v else dict_get d k'.
Proof.
  induction d as [|[k0 v0] d IH]; cbn [dict_set dict_get].
  - reflexivity.
  - destruct (str_eqb k0 k) eqn:E0; cbn [dict_get].
    + apply str_eqb_eq in E0; subst k0.
      destruct (str_eqb k k'); reflexivity.
    + destruct (str_eqb k0 k') eqn:E1; [|exact IH].
      apply str_eqb_eq in E1; subst k0.
      apply str_eqb_neq in E0.
      assert (E2 : str_eqb k k' = false) by (apply str_eqb_neq; congruence).
      now rewrite E2.
Qed.

Lemma dict_mem_set {V} (d : dict V) (k k' : str) (v : V) :
  dict_mem (dict_set d k v) k' = str_eqb k k' || dict_mem d k'.
Proof.
  unfold dict_mem. rewrite dict_get_set. destruct (str_eqb k k'); reflexivity.
Qed.

Lemma dict_mem_keys {V} (d : dict V) (k : str) :
  dict_mem d k = true <-> In k (dict_keys d).
Proof.
  unfold dict_mem. induction d as [|[k0 v0] d IH]; cbn [dict_get dict_keys map fst In].
  - split; [discriminate | tauto].
  - destruct (str_eqb k0 k) eqn:E.
    + apply str_eqb_eq in E. split; auto.
    + apply str_eqb_neq in E. rewrite IH. unfold dict_keys. tauto.
Qed.

Lemma dict_keys_set {V} (d : dict V) (k : str) (v : V) :
  dict_keys (dict_set d k v) =
  if dict_mem d k then dict_keys d else dict_keys d ++ [k].
Proof.
  unfold dict_mem, dict_keys.
  induction d as [|[k0 v0] d IH]; cbn [dict_set dict_get map fst app].
  - reflexivity.
  - destruct (str_eqb k0 k) eqn:E; cbn [map fst]; [reflexivity|].
    rewrite IH. destruct (dict_get d k); reflexivity.
Qed.

Lemma dict_keys_set_NoDup {V} (d : dict V) (k : str) (v : V) :
  NoDup (dict_keys d) -> NoDup (dict_keys (dict_set d k v)).
Proof.
  intros H. rewrite dict_keys_set. destruct (dict_mem d k) eqn:E; [exact H|].
  apply NoDup_app; [exact H | repeat constructor; simpl; tauto |].
  intros x Hx [<-|[]]. apply dict_mem_keys in Hx. congruence.
Qed.

Lemma dict_get_In {V} (d : dict V) (k : str) (v : V) :
  NoDup (dict_keys d) -> In (k, v) d -> dict_get d k = Some v.
Proof.
  unfold dict_keys. induction d as [|[k0 v0] d IH]; cbn [map fst dict_get In];
    [tauto|].
  intros Hnd [Heq|Hin].
  - inversion Heq; subst. now rewrite str_eqb_refl.
  - inversion Hnd as [|? ? Hnot Hnd']; subst.
    destruct (str_eqb k0 k) eqn:E; [|auto].
    apply str_eqb_eq in E; subst k0.
    exfalso. apply Hnot. apply in_map_iff. exists (k, v). auto.
Qed.

Lemma dict_In_get {V} (d : dict V) (k : str) (v : V) :
  dict_get d k = Some v -> In (k, v) d.
Proof.
  induction d as [|[k0 v0] d IH]; cbn [dict_get In]; [discriminate|].
  destruct (str_eqb k0 k) eqn:E; [|auto].
  apply str_eqb_eq in E; subst k0. intros H; inversion H; auto.
Qed.

(** A dictionary filled by a loop has exactly the keys the loop set. *)
Lemma dict_loop_mem {A V} (kf : A -> str) (vf : dict V -> A -> V)
    (xs : list A) (k : str) :
  forall d0,
    dict_mem (fold_left (fun d x => dict_set d (kf x) (vf d x)) xs d0) k = true
    <-> dict_mem d0 k = true \/ exists x, In x xs /\ kf x = k.
Proof.
  induction xs as [|x xs IH]; intros d0; cbn [fold_left].
  - split; [auto | intros [H|[x [[] _]]]; exact H].
  - rewrite IH, dict_mem_set, orb_true_iff, str_eqb_eq. split.
    + intros [[H|H]|[y [Hy Hk]]]; eauto.
      * right. exists x. split; [left; reflexivity | exact H].
      * right. exists y. split; [right; exact Hy | exact Hk].
    + intros [H|[y [[<-|Hy] Hk]]]; eauto.
Qed.

Lemma dict_loop_NoDup {A V} (kf : A -> str) (vf : dict V -> A -> V)
    (xs : list A) :
  forall d0, NoDup (dict_keys d0) ->
    NoDup (dict_keys (fold_left (fun d x => dict_set d (kf x) (vf d x)) xs d0)).
Proof.
  induction xs as [|x xs IH]; intros d0 H; cbn [fold_left]; [exact H|].
  apply IH. apply dict_keys_set_NoDup. exact H.
Qed.

(** ** The handlers, run *)

Lemma await_run {A} (r : exn + A) (s : session) : await r s = (r, s).
Proof. destruct r; reflexivity. Qed.

Lemma translate_missing_serve (flags : dict str) (upper : str -> str)
    (chat : str -> str -> str -> exn + str) (lang : str) (db : DB) :
  serve (translate_missing flags upper chat lang) db =
  match find (fun l => str_eqb (Language.code l) lang) (languages db) with
  | None => (inl (HTTPException 404 (language_not_found lang)), db)
  | Some l =>
      (translate_with_gpt flags upper chat
         (ru_texts_of (translations db)
            (missing_keys_of (translations db) lang))
         lang (Language.name_ru l) (emoji_or_empty l), db)
  end.
Proof.
  unfold serve, translate_missing, with_session.
  unfold bind at 1. unfold bind at 1. unfold select_translations.
  unfold bind at 1. unfold get_language. cbn [view committed].
  destruct (find _ (languages db)) as [l|]; [|reflexivity].
  unfold ret. cbn [fst snd committed]. rewrite await_run. reflexivity.
Qed.

(** C8: the code at a language the directory does not have.  The 404 the
    handler of [/translate_with_gpt] raises is caught by its own
    [except Exception] and leaves as a 500; [translate_missing] lets its
    404 through.  Neither touches the catalogue. *)
Theorem unknown_language_404_becomes_500 (flags : dict str)
    (upper : str -> str) (str_of_exn : exn -> str)
    (chat : str -> str -> str -> exn + str) (lang : str) (db : DB) :
  find (fun l => str_eqb (Language.code l) lang) (languages db) = None ->
  serve (gpt_translation_handler flags upper str_of_exn chat lang) db =
    (inl (HTTPException 500 (str_of_exn (HTTPException 404 LANG_NOT_FOUND))),
     db) /\
  serve (translate_missing flags upper chat lang) db =
    (inl (HTTPException 404 (language_not_found lang)), db).
Proof.
  intros H. rewrite gpt_translation_handler_serve, translate_missing_serve, H.
  split; reflexivity.
Qed.

Lemma unknown_language_404_becomes_500_witness :
  fst (serve (gpt_translation_handler demo_flags demo_upper no_detail
                chat_three_lines (lit "xx")) demo_db) =
    inl (HTTPException 500 []) /\
  fst (serve (translate_missing demo_flags demo_upper chat_three_lines (lit "xx"))
         demo_db) =
    inl (HTTPException 404 (lit "Language 'xx' not found")).
Proof.
  destruct (@unknown_language_404_becomes_500 demo_flags demo_upper no_detail
              chat_three_lines (lit "xx") demo_db eq_refl) as [H1 H2].
  rewrite H1, H2. split; reflexivity.
Defined.

Lemma parse_nothing (flags : dict str) (upper : str -> str) (target : str)
    (lines : list str) :
  Forall (fun line => contains COLON line = false) lines ->
  forall d, fold_left (parse_line flags upper target) lines d = d.
Proof.
  induction 1 as [|line lines Hl _ IH]; intros d; cbn [fold_left];
    [reflexivity|].
  unfold parse_line at 2. rewrite Hl. apply IH.
Qed.

(** C7, as stated, fails for a reply that cannot be parsed: no error is
    surfaced, the call answers ok with zero added. *)
Lemma unparseable_reply_counterexample :
  let out := serve (gpt_translation_handler demo_flags demo_upper no_detail
                      chat_sorry (lit "en")) demo_db in
  unparseable (lit "Sorry, I cannot help with that") /\
  out = (inr (mkAdded OK 0), demo_db) /\
  (forall e, fst out <> inl e).
Proof.
  cbv zeta. repeat split.
  - unfold unparseable. vm_compute. repeat constructor.
  - intros e. vm_compute. discriminate.
Qed.

(** C7, amended: when the call to the capability raises, the handler of
    [/translate_with_gpt] answers with a single 500 carrying the text of
    that exception and the catalogue is as before.  When the capability
    returns a reply none of whose lines can be parsed, the handler does not
    fail: it answers ok with zero added, and the catalogue is as before. *)
Theorem capability_failure_leaves_catalogue (flags : dict str)
    (upper : str -> str) (str_of_exn : exn -> str)
    (chat : str -> str -> str -> exn + str) (db : DB) (l : Language.t) :
  find (fun x => str_eqb (Language.code x) (Language.code l)) (languages db)
    = Some l ->
  let prompt := format_batch flags (ru_dict_of (filter is_ru (translations db))) in
  let answer := chat (Language.name_ru l) (emoji_or_empty l) prompt in
  let out := serve (gpt_translation_handler flags upper str_of_exn chat
                      (Language.code l)) db in
  (forall e, answer = inl e ->
     out = (inl (HTTPException 500 (str_of_exn e)), db)) /\
  (forall content, answer = inr content -> unparseable content ->
     out = (inr (mkAdded OK 0), db)).
Proof.
  intros Hfind. cbv zeta. rewrite gpt_translation_handler_serve, Hfind.
  unfold translate_with_gpt. split.
  - intros e ->. reflexivity.
  - intros content -> Hun. unfold unparseable in Hun.
    rewrite (parse_nothing flags upper (Language.code l) Hun).
    destruct db; reflexivity.
Qed.

Lemma capability_failure_leaves_catalogue_witness :
  serve (gpt_translation_handler demo_flags demo_upper no_detail chat_down
           (lit "en")) demo_db =
    (inl (HTTPException 500 []), demo_db).
Proof.
  refine (proj1 (@capability_failure_leaves_catalogue demo_flags demo_upper
            no_detail chat_down demo_db lang_en eq_refl)
            (Failure (lit "connection refused")) eq_refl).
Defined.

Lemma show_translations_db (flags : dict str) (upper : str -> str)
    (chat : str -> str -> str -> exn + str) (add : option str) (db : DB) :
  snd (serve (show_translations flags upper chat add) db) = db.
Proof.
  unfold serve, show_translations, try_except, with_session.
  unfold bind at 1. unfold bind at 1. unfold select_translations.
  unfold bind at 1. unfold select_languages, ret at 1.
  cbn [view committed fst snd].
  destruct (match add with Some c => find _ (languages db) | None => None end)
    as [sl|].
  - unfold bind. rewrite await_run.
    destruct (translate_with_gpt _ _ _ _ _ _ _); reflexivity.
  - reflexivity.
Qed.

Lemma show_translations_stats (flags : dict str) (upper : str -> str)
    (chat : str -> str -> str -> exn + str) (add : option str) (db db' : DB)
    (ctx : Context) :
  serve (show_translations flags upper chat add) db = (inr ctx, db') ->
  let tr := group_rows (translations db) in
  let fk := filtered_keys_of tr in
  ctx_total_keys ctx = Z.of_nat (length fk) /\
  ctx_filled_count ctx =
    fold_left (fun d l => dict_set d (Language.code l)
                 (filled_for tr fk (Language.code l))) (ctx_langs ctx) [] /\
  ctx_missing_count ctx =
    List.map (fun cf => (fst cf, (ctx_total_keys ctx - snd cf)%Z))
             (ctx_filled_count ctx).
Proof.
  unfold serve, show_translations, try_except, with_session.
  unfold bind at 1. unfold bind at 1. unfold select_translations.
  unfold bind at 1. unfold select_languages, ret at 1.
  cbn [view committed fst snd].
  destruct (match add with Some c => find _ (languages db) | None => None end)
    as [sl|].
  - unfold bind. rewrite await_run.
    destruct (translate_with_gpt _ _ _ _ _ _ _) as [e|g]; [discriminate|].
    unfold ret. intros H; inversion H; subst; clear H.
    cbn [ctx_total_keys ctx_filled_count ctx_missing_count ctx_langs].
    repeat split.
  - unfold ret. intros H; inversion H; subst; clear H.
    cbn [ctx_total_keys ctx_filled_count ctx_missing_count ctx_langs].
    repeat split.
Qed.

(** Without [?add=] the page never fails. *)
Lemma show_translations_returns (flags : dict str) (upper : str -> str)
    (chat : str -> str -> str -> exn + str) (db : DB) :
  exists ctx, serve (show_translations flags upper chat None) db = (inr ctx, db).
Proof. eexists. reflexivity. Qed.

(** C9: a preview never writes.  Whatever [?add=] asks for and whatever
    the capability answers, [show_translations] leaves the database as it
    found it, and so does [translate_missing]; the page computed afterwards
    (its filled counts included) is the page that would have been computed
    before. *)
Theorem preview_leaves_catalogue (flags : dict str) (upper : str -> str)
    (chat : str -> str -> str -> exn + str) (add again : option str)
    (lang : str) (db : DB) :
  snd (serve (show_translations flags upper chat add) db) = db /\
  snd (serve (translate_missing flags upper chat lang) db) = db /\
  serve (show_translations flags upper chat again)
    (snd (serve (show_translations flags upper chat add) db)) =
  serve (show_translations flags upper chat again) db /\
  serve (show_translations flags upper chat again)
    (snd (serve (translate_missing flags upper chat lang) db)) =
  serve (show_translations flags upper chat again) db.
Proof.
  assert (Hm : snd (serve (translate_missing flags upper chat lang) db) = db).
  { rewrite translate_missing_serve. destruct (find _ _); reflexivity. }
  rewrite show_translations_db, Hm. repeat split.
Qed.

(** The preview itself is not empty-handed: asked for Polish on the demo
    catalogue it hands the template two fresh translations, and none of
    them is stored. *)
Example preview_pl_shows_but_does_not_store :
  let out := serve (show_translations demo_flags demo_upper chat_three_lines
                      (Some (lit "pl"))) demo_db in
  option_map (fun ctx => dict_keys (ctx_temp_translations ctx))
    (match fst out with inr ctx => Some ctx | inl _ => None end)
    = Some [lit "greeting"; lit "bye"; lit "x"] /\
  snd out = demo_db.
Proof. cbv zeta. split; vm_compute; reflexivity. Qed.

Lemma ru_dict_of_mem (rows : list Translation.t) (k : str) :
  dict_mem (ru_dict_of (filter is_ru rows)) k = true <-> has_entry rows k RU.
Proof.
  unfold ru_dict_of.
  rewrite (dict_loop_mem Translation.key (fun _ row => Translation.text row)).
  unfold has_entry. split.
  - intros [H|[r [Hin Hk]]]; [discriminate|].
    apply filter_In in Hin as [Hin Hru]. apply str_eqb_eq in Hru. eauto.
  - intros [r [Hin [Hk Hl]]]. right. exists r. split; [|exact Hk].
    apply filter_In. split; [exact Hin | apply str_eqb_eq; exact Hl].
Qed.


(** ** The catalogue grouped by key *)

Lemma has_entryb_spec (rows : list Translation.t) (k l : str) :
  has_entryb rows k l = true <-> has_entry rows k l.
Proof.
  unfold has_entryb, has_entry. rewrite existsb_exists.
  split; intros [r [Hin H]]; exists r; split; auto.
  - apply andb_true_iff in H as [Hk Hl].
    apply str_eqb_eq in Hk. apply str_eqb_eq in Hl. auto.
  - destruct H as [-> ->]. now rewrite !str_eqb_refl.
Qed.

Lemma has_entry_snoc (rows : list Translation.t) (r : Translation.t) (k l : str) :
  has_entry (rows ++ [r]) k l <->
  has_entry rows k l \/ (Translation.key r = k /\ Translation.lang r = l).
Proof.
  unfold has_entry. split.
  - intros [x [Hin H]]. apply in_app_iff in Hin as [Hin|[<-|[]]]; eauto.
  - intros [[x [Hin H]]|H].
    + exists x. split; [apply in_app_iff; auto | exact H].
    + exists r. split; [apply in_app_iff; right; left; reflexivity | exact H].
Qed.

Lemma dict_get_default_set {V} (dflt : V) (d : dict V) (k k' : str) (v : V) :
  dict_get_default dflt (dict_set d k v) k' =
  if str_eqb k k' then v else dict_get_default dflt d k'.
Proof.
  unfold dict_get_default. rewrite dict_get_set.
  destruct (str_eqb k k'); reflexivity.
Qed.

Lemma group_rows_snoc (rows : list Translation.t) (r : Translation.t) :
  group_rows (rows ++ [r]) =
  set2 (group_rows rows) (Translation.key r) (Translation.lang r)
       (Translation.text r).
Proof. unfold group_rows. rewrite fold_left_app. reflexivity. Qed.

(** [l in translations[k]] exactly when the catalogue has a row for
    [(k, l)]. *)
Lemma group_rows_inner (rows : list Translation.t) (k l : str) :
  dict_mem (dict_get_default [] (group_rows rows) k) l = true
  <-> has_entry rows k l.
Proof.
  induction rows as [|r rows IH] using rev_ind.
  - split; [discriminate | intros [x [[] _]]].
  - rewrite group_rows_snoc, has_entry_snoc. unfold set2.
    rewrite dict_get_default_set.
    destruct (str_eqb (Translation.key r) k) eqn:Ek.
    + apply str_eqb_eq in Ek. subst k.
      rewrite dict_mem_set, orb_true_iff, str_eqb_eq, IH. tauto.
    + apply str_eqb_neq in Ek. rewrite IH. tauto.
Qed.

Lemma group_rows_keys (rows : list Translation.t) (k : str) :
  In k (dict_keys (group_rows rows)) <-> exists l, has_entry rows k l.
Proof.
  rewrite <- dict_mem_keys. unfold group_rows, set2.
  rewrite (dict_loop_mem Translation.key
             (fun tr row => dict_set (dict_get_default [] tr (Translation.key row))
                              (Translation.lang row) (Translation.text row))).
  unfold has_entry. split.
  - intros [H|[r [Hin Hk]]]; [discriminate|]. exists (Translation.lang r), r. auto.
  - intros [l [r [Hin [Hk _]]]]. right. eauto.
Qed.

Lemma group_rows_NoDup (rows : list Translation.t) :
  NoDup (dict_keys (group_rows rows)).
Proof.
  unfold group_rows, set2.
  apply (dict_loop_NoDup Translation.key
           (fun tr row => dict_set (dict_get_default [] tr (Translation.key row))
                            (Translation.lang row) (Translation.text row))).
  constructor.
Qed.

Lemma filtered_keys_spec (rows : list Translation.t) (k : str) :
  In k (filtered_keys_of (group_rows rows)) <->
  k <> WELCOME /\ exists l, has_entry rows k l.
Proof.
  unfold filtered_keys_of. rewrite filter_In, group_rows_keys, negb_true_iff,
    str_eqb_neq. tauto.
Qed.

Lemma filtered_keys_NoDup (rows : list Translation.t) :
  NoDup (filtered_keys_of (group_rows rows)).
Proof. apply NoDup_filter, group_rows_NoDup. Qed.

Lemma filled_for_counts (rows : list Translation.t) (code : str) :
  filled_for (group_rows rows) (filtered_keys_of (group_rows rows)) code =
  Z.of_nat (length (filter (fun k => has_entryb rows k code)
                           (filtered_keys_of (group_rows rows)))).
Proof.
  unfold filled_for. do 2 f_equal. apply filter_ext. intros k.
  destruct (has_entryb rows k code) eqn:E.
  - apply group_rows_inner, has_entryb_spec, E.
  - destruct (dict_mem _ code) eqn:E'; [|reflexivity].
    apply group_rows_inner, has_entryb_spec in E'. congruence.
Qed.

(** Values stored by a loop that sets [d[kf x] = f (kf x)]. *)
Lemma dict_loop_values {A V} (kf : A -> str) (f : str -> V) (xs : list A)
    (k : str) (v : V) :
  forall d0,
    (forall v0, dict_get d0 k = Some v0 -> v0 = f k) ->
    dict_get (fold_left (fun d x => dict_set d (kf x) (f (kf x))) xs d0) k
      = Some v ->
    v = f k.
Proof.
  induction xs as [|x xs IH]; intros d0 H0; cbn [fold_left]; [apply H0|].
  apply IH. intros v0. rewrite dict_get_set.
  destruct (str_eqb (kf x) k) eqn:E; [|apply H0].
  apply str_eqb_eq in E. subst k. intros H; inversion H; reflexivity.
Qed.

Lemma dict_get_map_values {V W} (g : V -> W) (d : dict V) (k : str) :
  dict_get (List.map (fun kv => (fst kv, g (snd kv))) d) k =
  option_map g (dict_get d k).
Proof.
  induction d as [|[k0 v0] d IH]; cbn [map dict_get fst snd]; [reflexivity|].
  destruct (str_eqb k0 k); [reflexivity | exact IH].
Qed.

Lemma filter_length_le {A} (f : A -> bool) (l : list A) :
  (length (filter f l) <= length l)%nat.
Proof.
  induction l as [|x l IH]; simpl; [lia|]. destruct (f x); simpl; lia.
Qed.

Lemma filter_all {A} (f : A -> bool) (l : list A) :
  (forall x, In x l -> f x = true) -> filter f l = l.
Proof.
  induction l as [|x l IH]; intros H; simpl; [reflexivity|].
  rewrite (H x (or_introl eq_refl)). f_equal. apply IH.
  intros y Hy. apply H. right; exact Hy.
Qed.

(** ** Coverage *)

(** C5, as stated, fails: key ["b"] exists for English only.  The page
    counts it in the total (2, where the source language has one key) and
    reports one missing key for the source language. *)
Lemma coverage_source_language_counterexample :
  exists ctx,
    serve (show_translations demo_flags demo_upper chat_three_lines None) orphan_db
      = (inr ctx, orphan_db) /\
    ctx_total_keys ctx = 2%Z /\
    ctx_total_keys ctx <>
      Z.of_nat (length (filter (fun k => negb (str_eqb k WELCOME))
                  (dict_keys (ru_dict_of (filter is_ru (translations orphan_db)))))) /\
    dict_get (ctx_filled_count ctx) RU = Some 1%Z /\
    dict_get (ctx_missing_count ctx) RU = Some 1%Z /\
    dict_get (ctx_missing_count ctx) RU <> Some 0%Z.
Proof.
  eexists. split; [vm_compute; reflexivity|].
  repeat split; vm_compute; (reflexivity || discriminate).
Qed.

(** C5, amended: on the page every displayed language has its counts;
    filled plus missing is the total, and both are non-negative.  The total is the
    number of distinct keys, ["welcome"] excluded, that have a row in any
    language; filled is the number of those with a row in the language.
    The source language has nothing missing when every such key has a
    source-language row. *)
Theorem coverage_counts_add_up (flags : dict str) (upper : str -> str)
    (chat : str -> str -> str -> exn + str) (add : option str) (db db' : DB)
    (ctx : Context) :
  serve (show_translations flags upper chat add) db = (inr ctx, db') ->
  exists keys,
    NoDup keys /\
    (forall k, In k keys <->
               k <> WELCOME /\ exists l, has_entry (translations db) k l) /\
    ctx_total_keys ctx = Z.of_nat (length keys) /\
    (forall l, In l (ctx_langs ctx) ->
               dict_mem (ctx_filled_count ctx) (Language.code l) = true) /\
    (forall code filled,
       dict_get (ctx_filled_count ctx) code = Some filled ->
       filled = Z.of_nat (length (filter
                  (fun k => has_entryb (translations db) k code) keys)) /\
       (0 <= filled)%Z /\
       exists missing,
         dict_get (ctx_missing_count ctx) code = Some missing /\
         (filled + missing = ctx_total_keys ctx)%Z /\ (0 <= missing)%Z) /\
    (forall code missing,
       dict_get (ctx_missing_count ctx) code = Some missing ->
       exists filled,
         dict_get (ctx_filled_count ctx) code = Some filled /\
         (filled + missing = ctx_total_keys ctx)%Z) /\
    ((forall k l, k <> WELCOME -> has_entry (translations db) k l ->
                  has_entry (translations db) k RU) ->
     forall missing,
       dict_get (ctx_missing_count ctx) RU = Some missing -> missing = 0%Z).
Proof.
  intros Hrun.
  destruct (show_translations_stats _ _ _ _ _ Hrun) as [Htotal [Hfilled Hmissing]].
  set (rows := translations db) in *.
  set (fk := filtered_keys_of (group_rows rows)) in *.
  assert (Hval : forall code filled,
             dict_get (ctx_filled_count ctx) code = Some filled ->
             filled = Z.of_nat (length (filter
                        (fun k => has_entryb rows k code) fk))).
  { intros code filled Hget. rewrite Hfilled in Hget.
    apply (dict_loop_values Language.code
             (fun c => filled_for (group_rows rows) fk c)) in Hget.
    - rewrite Hget. apply filled_for_counts.
    - discriminate. }
  assert (Hmiss : forall code,
             dict_get (ctx_missing_count ctx) code =
             option_map (fun f => (ctx_total_keys ctx - f)%Z)
                        (dict_get (ctx_filled_count ctx) code)).
  { intros code. rewrite Hmissing. apply dict_get_map_values. }
  exists fk. split; [apply filtered_keys_NoDup|].
  split; [intros k; apply filtered_keys_spec|].
  split; [exact Htotal|].
  split.
  { intros l Hl. rewrite Hfilled.
    apply (dict_loop_mem Language.code
             (fun (_ : dict Z) x => filled_for (group_rows rows) fk (Language.code x))).
    right. exists l. split; [exact Hl | reflexivity]. }
  split; [|split].
  - intros code filled Hget. pose proof (Hval _ _ Hget) as Hf.
    pose proof (filter_length_le (fun k => has_entryb rows k code) fk) as Hle.
    split; [exact Hf|]. split; [lia|].
    exists (ctx_total_keys ctx - filled)%Z.
    rewrite Hmiss, Hget. cbn [option_map]. repeat split; lia.
  - intros code missing Hget. rewrite Hmiss in Hget.
    destruct (dict_get (ctx_filled_count ctx) code) as [filled|];
      [|discriminate].
    cbn [option_map] in Hget. inversion Hget. exists filled. split; [reflexivity | lia].
  - intros Hall missing Hget. rewrite Hmiss in Hget.
    destruct (dict_get (ctx_filled_count ctx) RU) as [filled|] eqn:Hf;
      [|discriminate].
    cbn [option_map] in Hget. inversion Hget.
    rewrite (Hval _ _ Hf), Htotal.
    rewrite filter_all; [lia|].
    intros k Hk. apply filtered_keys_spec in Hk as [Hne [l Hl]].
    apply has_entryb_spec. apply (Hall k l Hne Hl).
Qed.

Lemma coverage_counts_add_up_witness :
  exists (ctx : Context) (keys : list str),
    serve (show_translations demo_flags demo_upper chat_three_lines None) demo_db
      = (inr ctx, demo_db) /\
    ctx_total_keys ctx = Z.of_nat (length keys) /\
    (forall code filled,
       dict_get (ctx_filled_count ctx) code = Some filled ->
       exists missing,
         dict_get (ctx_missing_count ctx) code = Some missing /\
         (filled + missing = ctx_total_keys ctx)%Z) /\
    (forall missing,
       dict_get (ctx_missing_count ctx) RU = Some missing -> missing = 0%Z).
Proof.
  destruct (show_translations_returns demo_flags demo_upper chat_three_lines demo_db)
    as [ctx Hrun].
  destruct (@coverage_counts_add_up demo_flags demo_upper chat_three_lines None
              demo_db demo_db ctx Hrun) as [keys [_ [_ [Ht [_ [Hf [_ Hru]]]]]]].
  exists ctx, keys. split; [exact Hrun|]. split; [exact Ht|]. split.
  - intros code filled Hget.
    destruct (Hf code filled Hget) as [_ [_ [missing [Hm [Hsum _]]]]].
    exists missing. split; assumption.
  - apply Hru. intros k l Hne [r [Hin [Hk Hl]]].
    assert (Hb : has_entryb demo_rows (Translation.key r) RU = true).
    { clear Hne Hk Hl.
      repeat (destruct Hin as [<-|Hin]; [vm_compute; reflexivity|]).
      destruct Hin. }
    apply has_entryb_spec in Hb. subst k. exact Hb.
Defined.

(** ** Missing keys *)

Lemma set_mem_add (x y : str) (s : list str) :
  set_mem x (set_add y s) = str_eqb x y || set_mem x s.
Proof.
  unfold set_add. destruct (set_mem y s) eqn:E.
  - destruct (str_eqb x y) eqn:Exy; [|reflexivity].
    apply str_eqb_eq in Exy. subst y. now rewrite E.
  - unfold set_mem. rewrite existsb_app. cbn [existsb].
    rewrite orb_false_r. apply orb_comm.
Qed.

Lemma existing_of_snoc (rows : list Translation.t) (r : Translation.t) :
  existing_of (rows ++ [r]) =
  dict_set (existing_of rows) (Translation.key r)
    (set_add (Translation.lang r)
       (dict_get_default [] (existing_of rows) (Translation.key r))).
Proof. unfold existing_of. rewrite fold_left_app. reflexivity. Qed.

(** [l in existing[k]] exactly when the catalogue has a row for [(k, l)]. *)
Lemma existing_of_inner (rows : list Translation.t) (k l : str) :
  set_mem l (dict_get_default [] (existing_of rows) k) = true
  <-> has_entry rows k l.
Proof.
  induction rows as [|r rows IH] using rev_ind.
  - split; [discriminate | intros [x [[] _]]].
  - rewrite existing_of_snoc, has_entry_snoc, dict_get_default_set.
    destruct (str_eqb (Translation.key r) k) eqn:Ek.
    + apply str_eqb_eq in Ek. subst k.
      rewrite set_mem_add, orb_true_iff, str_eqb_eq, IH.
      split.
      * intros [H|H]; [right; split; congruence | left; exact H].
      * intros [H|[_ H]]; [right; exact H | left; congruence].
    + apply str_eqb_neq in Ek. rewrite IH. tauto.
Qed.

Lemma existing_of_mem (rows : list Translation.t) (k : str) :
  dict_mem (existing_of rows) k = true <-> exists l, has_entry rows k l.
Proof.
  unfold existing_of.
  rewrite (dict_loop_mem Translation.key
             (fun ex r => set_add (Translation.lang r)
                            (dict_get_default [] ex (Translation.key r)))).
  unfold has_entry. split.
  - intros [H|[r [Hin Hk]]]; [discriminate|]. exists (Translation.lang r), r. auto.
  - intros [l [r [Hin [Hk _]]]]. right. eauto.
Qed.

Lemma existing_of_NoDup (rows : list Translation.t) :
  NoDup (dict_keys (existing_of rows)).
Proof.
  unfold existing_of.
  apply (dict_loop_NoDup Translation.key
           (fun ex r => set_add (Translation.lang r)
                          (dict_get_default [] ex (Translation.key r)))).
  constructor.
Qed.

Lemma NoDup_map_filter {A B} (f : A -> B) (p : A -> bool) (l : list A) :
  NoDup (List.map f l) -> NoDup (List.map f (filter p l)).
Proof.
  induction l as [|x l IH]; simpl; intros H; [constructor|].
  inversion H as [|? ? Hnot Hnd]; subst.
  destruct (p x); [|auto]. simpl. constructor; [|auto].
  intros Hin. apply Hnot. apply in_map_iff in Hin as [y [Hy Hin]].
  apply filter_In in Hin as [Hin _]. apply in_map_iff. eauto.
Qed.

(** C6, as stated, fails on the claim's own example: source keys
    welcome, greeting and bye, target key greeting.  The computation
    returns welcome along with bye. *)
Lemma missing_keys_welcome_counterexample :
  missing_keys_of demo_rows (lit "en") = [lit "welcome"; lit "bye"] /\
  missing_keys_of demo_rows (lit "en") <> [lit "bye"] /\
  In WELCOME (missing_keys_of demo_rows (lit "en")).
Proof.
  repeat split; try (vm_compute; reflexivity).
  - vm_compute. discriminate.
  - vm_compute. left; reflexivity.
Qed.

(** C6, amended: the missing keys are exactly the keys that have a
    source-language row and no row in the target language, each once; the
    reserved key is not left out: it is among them whenever it has a
    source-language row and no target-language one. *)
Theorem missing_keys_are_ru_without_target (rows : list Translation.t)
    (lang : str) :
  (forall k, In k (missing_keys_of rows lang) <->
             has_entry rows k RU /\ ~ has_entry rows k lang) /\
  NoDup (missing_keys_of rows lang) /\
  (In WELCOME (missing_keys_of rows lang) <->
   has_entry rows WELCOME RU /\ ~ has_entry rows WELCOME lang).
Proof.
  assert (Hchar : forall k, In k (missing_keys_of rows lang) <->
             has_entry rows k RU /\ ~ has_entry rows k lang).
  { intros k. unfold missing_keys_of. rewrite in_map_iff. split.
    - intros [[k' langs] [Hk Hin]]. cbn [fst] in Hk. subst k'.
      apply filter_In in Hin as [Hin Hcond]. cbn [snd] in Hcond.
      apply andb_true_iff in Hcond as [Hru Hno].
      apply negb_true_iff in Hno.
      apply (dict_get_In _ _ _ (existing_of_NoDup rows)) in Hin.
      assert (Hd : dict_get_default [] (existing_of rows) k = langs)
        by (unfold dict_get_default; now rewrite Hin).
      split.
      + apply existing_of_inner. now rewrite Hd.
      + intros H. apply existing_of_inner in H. rewrite Hd in H. congruence.
    - intros [Hru Hno].
      assert (Hmem : dict_mem (existing_of rows) k = true)
        by (apply existing_of_mem; eauto).
      unfold dict_mem in Hmem.
      destruct (dict_get (existing_of rows) k) as [langs|] eqn:Hget;
        [|discriminate].
      assert (Hd : dict_get_default [] (existing_of rows) k = langs)
        by (unfold dict_get_default; now rewrite Hget).
      exists (k, langs). split; [reflexivity|].
      apply filter_In. split; [apply dict_In_get; exact Hget|].
      cbn [snd]. apply andb_true_iff. split.
      + rewrite <- Hd. apply existing_of_inner. exact Hru.
      + apply negb_true_iff. destruct (set_mem lang langs) eqn:E; [|reflexivity].
        exfalso. apply Hno. apply existing_of_inner. now rewrite Hd. }
  split; [exact Hchar|]. split; [|apply Hchar].
  unfold missing_keys_of. apply NoDup_map_filter. apply existing_of_NoDup.
Qed.

(** ** The manual edit *)

Lemma update_translation_serve (data : UpdateRequest) (db : DB) :
  serve (update_translation data) db =
  match filter (matches (upd_key data) (upd_lang data)) (translations db) with
  | [] => (inl (HTTPException 404 TRANSLATION_NOT_FOUND), db)
  | [r] => (inr UPDATED,
            mkDB (write_text r (upd_text data) (translations db)) (languages db))
  | _ :: _ :: _ => (inl (HTTPException 500 INTERNAL_SERVER_ERROR), db)
  end.
Proof.
  unfold serve, update_translation, try_except, with_session, with_begin.
  unfold bind at 1. unfold bind at 1. unfold select_translation_where.
  cbn [view committed]. fold (matches (upd_key data) (upd_lang data)).
  destruct (filter _ (translations db)) as [|r [|r' rest]]; reflexivity.
Qed.

Lemma matches_spec (k l : str) (r : Translation.t) :
  matches k l r = true <-> Translation.key r = k /\ Translation.lang r = l.
Proof.
  unfold matches. now rewrite andb_true_iff, !str_eqb_eq.
Qed.

Lemma filter_nil_iff {A} (f : A -> bool) (l : list A) :
  filter f l = [] <-> forall x, In x l -> f x = false.
Proof.
  induction l as [|x l IH]; simpl.
  - split; [intros _ y [] | reflexivity].
  - destruct (f x) eqn:E.
    + split; [discriminate|]. intros H. specialize (H x (or_introl eq_refl)).
      congruence.
    + rewrite IH. split.
      * intros H y [<-|Hy]; auto.
      * intros H y Hy. apply H. right; exact Hy.
Qed.

(** An edit of a pair the catalogue does not have is answered 404, as
    raised, and nothing is written. *)
Theorem update_unknown_pair_is_404 (data : UpdateRequest) (db : DB) :
  ~ has_entry (translations db) (upd_key data) (upd_lang data) ->
  serve (update_translation data) db =
  (inl (HTTPException 404 TRANSLATION_NOT_FOUND), db).
Proof.
  intros Hno. rewrite update_translation_serve.
  assert (H : filter (matches (upd_key data) (upd_lang data)) (translations db) = []).
  { apply filter_nil_iff. intros r Hin.
    destruct (matches _ _ r) eqn:E; [|reflexivity].
    apply matches_spec in E. exfalso. apply Hno. exists r. tauto. }
  now rewrite H.
Qed.

Lemma update_unknown_pair_is_404_witness :
  serve (update_translation (mkUpdate (lit "bye") (lit "en") (lit "Bye"))) demo_db
  = (inl (HTTPException 404 (lit "Translation not found")), demo_db).
Proof.
  apply (@update_unknown_pair_is_404
           (mkUpdate (lit "bye") (lit "en") (lit "Bye")) demo_db).
  intros H. apply has_entryb_spec in H. vm_compute in H. discriminate.
Defined.

Lemma filter_single {A} (f : A -> bool) (pre post : list A) (x : A) :
  (forall y, In y pre -> f y = false) ->
  (forall y, In y post -> f y = false) ->
  f x = true ->
  filter f (pre ++ x :: post) = [x].
Proof.
  intros Hpre Hpost Hx. rewrite filter_app. cbn [filter]. rewrite Hx.
  apply filter_nil_iff in Hpre. apply filter_nil_iff in Hpost.
  now rewrite Hpre, Hpost.
Qed.

Lemma write_text_other (row : Translation.t) (t : str)
    (rows : list Translation.t) :
  (forall r, In r rows -> Translation.id r <> Translation.id row) ->
  write_text row t rows = rows.
Proof.
  unfold write_text. induction rows as [|r rows IH]; intros H; cbn [map];
    [reflexivity|].
  assert (E : Z.eqb (Translation.id r) (Translation.id row) = false).
  { apply Z.eqb_neq. apply H. left; reflexivity. }
  rewrite E. f_equal. apply IH. intros r' Hr'. apply H. right; exact Hr'.
Qed.

Lemma write_text_in_place (pre post : list Translation.t) (r : Translation.t)
    (t : str) :
  NoDup (List.map Translation.id (pre ++ r :: post)) ->
  write_text r t (pre ++ r :: post) = pre ++ with_text t r :: post.
Proof.
  intros Hnd. rewrite map_app in Hnd. cbn [map] in Hnd.
  apply NoDup_remove_2 in Hnd.
  unfold write_text. rewrite map_app. cbn [map]. rewrite Z.eqb_refl.
  fold (write_text r t pre). fold (write_text r t post).
  rewrite !write_text_other; [reflexivity| |].
  - intros x Hx E. apply Hnd. apply in_app_iff. right.
    rewrite <- E. apply in_map. exact Hx.
  - intros x Hx E. apply Hnd. apply in_app_iff. left.
    rewrite <- E. apply in_map. exact Hx.
Qed.

(** An edit of a pair that has exactly one row replaces the text of that
    row and nothing else: the row keeps its id, key, language and place,
    every other row and the language directory stay as they are. *)
Theorem update_replaces_text_in_place (db : DB) (pre post : list Translation.t)
    (r : Translation.t) (t : str) :
  translations db = pre ++ r :: post ->
  NoDup (List.map Translation.id (translations db)) ->
  (forall x, In x pre ->
     matches (Translation.key r) (Translation.lang r) x = false) ->
  (forall x, In x post ->
     matches (Translation.key r) (Translation.lang r) x = false) ->
  serve (update_translation
           (mkUpdate (Translation.key r) (Translation.lang r) t)) db =
  (inr UPDATED, mkDB (pre ++ with_text t r :: post) (languages db)).
Proof.
  intros Hrows Hnd Hpre Hpost. rewrite update_translation_serve.
  cbn [upd_key upd_lang upd_text]. rewrite Hrows in *.
  rewrite (filter_single _ _ _ _ Hpre Hpost)
    by (apply matches_spec; split; reflexivity).
  now rewrite (write_text_in_place _ _ _ t Hnd).
Qed.

Lemma update_replaces_text_in_place_witness :
  serve (update_translation (mkUpdate (lit "greeting") (lit "en") (lit "Hi")))
        demo_db =
  (inr UPDATED,
   mkDB [Translation.mk 1 (lit "welcome") (lit "ru") (lit "W");
         Translation.mk 2 (lit "greeting") (lit "ru") (lit "G");
         Translation.mk 3 (lit "bye") (lit "ru") (lit "B");
         Translation.mk 4 (lit "greeting") (lit "en") (lit "Hi")]
        [lang_en; lang_ru; lang_pl]).
Proof.
  refine (@update_replaces_text_in_place demo_db
            [Translation.mk 1 (lit "welcome") (lit "ru") (lit "W");
             Translation.mk 2 (lit "greeting") (lit "ru") (lit "G");
             Translation.mk 3 (lit "bye") (lit "ru") (lit "B")]
            []
            (Translation.mk 4 (lit "greeting") (lit "en") (lit "Hello"))
            (lit "Hi") eq_refl _ _ _).
  - vm_compute. repeat constructor; simpl; intuition discriminate.
  - intros x Hx. repeat (destruct Hx as [<-|Hx]; [vm_compute; reflexivity|]).
    destruct Hx.
  - intros x [].
Defined.

Lemma filter_two {A} (f : A -> bool) (l : list A) (x y : A) :
  In x l -> f x = true -> f y = true ->
  exists a b rest, filter f (l ++ [y]) = a :: b :: rest.
Proof.
  intros Hin Hx Hy. rewrite filter_app. cbn [filter]. rewrite Hy.
  assert (Hf : In x (filter f l)) by (apply filter_In; auto).
  destruct (filter f l) as [|a [|b rest]]; [destruct Hf| |].
  - exists a, y, []. reflexivity.
  - exists a, b, (rest ++ [y]). reflexivity.
Qed.

(** Committing a non-blank text for a pair that is already stored makes
    the pair uneditable: the next manual edit of it finds two rows and is
    answered 500, with nothing written.  The pair is the one the commit
    stores: the request's key and language code cut to the widths of
    their columns (themselves, when they fit). *)
Theorem update_after_recommit_is_500 (str_of_exn : exn -> str) (db : DB)
    (old : Translation.t) (k l new_text edit : str) :
  In old (translations db) ->
  Translation.key old = varchar KEY_WIDTH k ->
  Translation.lang old = varchar LANG_WIDTH l ->
  is_empty (strip new_text) = false ->
  let db1 := snd (serve (save_translations_handler str_of_exn
                           (mkBulkSave l [(k, new_text)])) db) in
  serve (update_translation
           (mkUpdate (Translation.key old) (Translation.lang old) edit)) db1 =
  (inl (HTTPException 500 INTERNAL_SERVER_ERROR), db1).
Proof.
  intros Hin Hk Hl Hblank. cbv zeta.
  rewrite save_translations_handler_serve.
  cbn [snd save_translations save_lang].
  unfold persist_rows. cbn [fold_left snd fst]. rewrite Hblank.
  rewrite insert_ignore_declared, update_translation_serve.
  rewrite <- Hk, <- Hl.
  cbn [upd_key upd_lang translations].
  destruct (filter_two (matches (Translation.key old) (Translation.lang old))
              (translations db) old
              (Translation.mk (next_id (translations db)) (Translation.key old)
                 (Translation.lang old) new_text) Hin)
    as [a [b [rest ->]]]; try (apply matches_spec; split; reflexivity).
  reflexivity.
Qed.

Lemma update_after_recommit_is_500_witness :
  fst (serve (update_translation (mkUpdate (lit "greeting") (lit "en") (lit "Hey")))
         (snd (serve (save_translations_handler no_detail
                        (mkBulkSave (lit "en") [(lit "greeting", lit "Hi")]))
                     hello_db))) =
  inl (HTTPException 500 (lit "Internal Server Error")).
Proof.
  assert (Hin : In (Translation.mk 1 (lit "greeting") (lit "en") (lit "Hello"))
                   (translations hello_db)) by (left; reflexivity).
  assert (Hblank : is_empty (strip (lit "Hi")) = false) by (vm_compute; reflexivity).
  exact (f_equal fst
           (@update_after_recommit_is_500 no_detail hello_db
              (Translation.mk 1 (lit "greeting") (lit "en") (lit "Hello"))
              (lit "greeting") (lit "en") (lit "Hi") (lit "Hey")
              Hin eq_refl eq_refl Hblank)).
Defined.

(** ** What the page shows for a pair *)

Lemma group_rows_shown_snoc (rows : list Translation.t) (r : Translation.t)
    (k l : str) :
  shown (group_rows (rows ++ [r])) k l =
  if matches k l r then Some (Translation.text r)
  else shown (group_rows rows) k l.
Proof.
  unfold shown, matches. rewrite group_rows_snoc. unfold set2.
  rewrite dict_get_default_set.
  destruct (str_eqb (Translation.key r) k) eqn:Ek; cbn [andb]; [|reflexivity].
  apply str_eqb_eq in Ek. subst k. rewrite dict_get_set.
  destruct (str_eqb (Translation.lang r) l); reflexivity.
Qed.

(** The page shows the text of the last row of a pair. *)
Lemma group_rows_shown_last (pre post : list Translation.t) (r : Translation.t) :
  (forall x, In x post ->
     matches (Translation.key r) (Translation.lang r) x = false) ->
  shown (group_rows (pre ++ r :: post)) (Translation.key r) (Translation.lang r)
  = Some (Translation.text r).
Proof.
  induction post as [|x post IH] using rev_ind; intros H.
  - rewrite group_rows_shown_snoc.
    assert (E : matches (Translation.key r) (Translation.lang r) r = true)
      by (apply matches_spec; split; reflexivity).
    now rewrite E.
  - replace (pre ++ r :: post ++ [x]) with ((pre ++ r :: post) ++ [x])
      by (rewrite <- app_assoc; reflexivity).
    rewrite group_rows_shown_snoc.
    rewrite (H x) by (apply in_app_iff; right; left; reflexivity).
    apply IH. intros y Hy. apply H. apply in_app_iff. left; exact Hy.
Qed.

Lemma show_translations_none (flags : dict str) (upper : str -> str)
    (chat : str -> str -> str -> exn + str) (db : DB) :
  exists ctx,
    serve (show_translations flags upper chat None) db = (inr ctx, db) /\
    ctx_translations ctx = group_rows (translations db) /\
    ctx_temp_translations ctx = [] /\
    ctx_selected_lang ctx = None.
Proof. eexists. split; [reflexivity|]. repeat split. Qed.

(** Edit, then look: after an edit of a pair that has one row, the page
    shows the new text for the pair. *)
Theorem update_then_page_shows_new_text (flags : dict str) (upper : str -> str)
    (chat : str -> str -> str -> exn + str) (db : DB)
    (pre post : list Translation.t) (r : Translation.t) (t : str) :
  translations db = pre ++ r :: post ->
  NoDup (List.map Translation.id (translations db)) ->
  (forall x, In x pre ->
     matches (Translation.key r) (Translation.lang r) x = false) ->
  (forall x, In x post ->
     matches (Translation.key r) (Translation.lang r) x = false) ->
  let db1 := snd (serve (update_translation
                           (mkUpdate (Translation.key r) (Translation.lang r) t))
                        db) in
  exists ctx,
    serve (show_translations flags upper chat None) db1 = (inr ctx, db1) /\
    shown (ctx_translations ctx) (Translation.key r) (Translation.lang r)
    = Some t.
Proof.
  intros Hrows Hnd Hpre Hpost. cbv zeta.
  rewrite update_translation_serve. cbn [upd_key upd_lang upd_text].
  rewrite Hrows in *.
  rewrite (filter_single _ _ _ _ Hpre Hpost)
    by (apply matches_spec; split; reflexivity).
  rewrite (write_text_in_place _ _ _ t Hnd). cbn [snd].
  destruct (show_translations_none flags upper chat
              (mkDB (pre ++ with_text t r :: post) (languages db)))
    as [ctx [Hrun [Htr _]]].
  exists ctx. split; [exact Hrun|]. rewrite Htr. cbn [translations].
  apply (group_rows_shown_last pre post (with_text t r)). exact Hpost.
Qed.

Lemma update_then_page_shows_new_text_witness :
  exists ctx,
    fst (serve (show_translations demo_flags demo_upper chat_three_lines None)
           (snd (serve (update_translation
                          (mkUpdate (lit "greeting") (lit "en") (lit "Hi")))
                       demo_db))) = inr ctx /\
    shown (ctx_translations ctx) (lit "greeting") (lit "en") = Some (lit "Hi").
Proof.
  destruct (@update_then_page_shows_new_text demo_flags demo_upper
              chat_three_lines demo_db
              [Translation.mk 1 (lit "welcome") (lit "ru") (lit "W");
               Translation.mk 2 (lit "greeting") (lit "ru") (lit "G");
               Translation.mk 3 (lit "bye") (lit "ru") (lit "B")]
              []
              (Translation.mk 4 (lit "greeting") (lit "en") (lit "Hello"))
              (lit "Hi") eq_refl) as [ctx [Hrun Hshown]].
  - vm_compute. repeat constructor; simpl; intuition discriminate.
  - intros x Hx. repeat (destruct Hx as [<-|Hx]; [vm_compute; reflexivity|]).
    destruct Hx.
  - intros x [].
  - exists ctx. split; [exact (f_equal fst Hrun) | exact Hshown].
Defined.

(** ** The three batches *)

Lemma ru_dict_of_snoc (rows : list Translation.t) (r : Translation.t) :
  ru_dict_of (rows ++ [r]) =
  dict_set (ru_dict_of rows) (Translation.key r) (Translation.text r).
Proof. unfold ru_dict_of. rewrite fold_left_app. reflexivity. Qed.

(** Per key, the commit batch holds what the page shows as the Russian
    text. *)
Lemma ru_dict_of_get (rows : list Translation.t) (k : str) :
  dict_get (ru_dict_of (filter is_ru rows)) k = shown (group_rows rows) k RU.
Proof.
  induction rows as [|r rows IH] using rev_ind; [reflexivity|].
  rewrite group_rows_shown_snoc, filter_app. cbn [filter]. unfold matches.
  fold (is_ru r). destruct (is_ru r).
  - rewrite ru_dict_of_snoc, dict_get_set, andb_true_r.
    destruct (str_eqb (Translation.key r) k); [reflexivity | exact IH].
  - rewrite app_nil_r, andb_false_r. exact IH.
Qed.

(** The batch of [/translate_with_gpt] carries, for a key, the text of the
    last Russian row of that key. *)
Theorem commit_batch_text_is_last_ru_row (pre post : list Translation.t)
    (r : Translation.t) :
  Translation.lang r = RU ->
  (forall x, In x post -> matches (Translation.key r) RU x = false) ->
  dict_get (ru_dict_of (filter is_ru (pre ++ r :: post))) (Translation.key r)
  = Some (Translation.text r).
Proof.
  intros Hru Hpost. rewrite ru_dict_of_get, <- Hru.
  apply group_rows_shown_last. rewrite Hru. exact Hpost.
Qed.

Lemma commit_batch_text_is_last_ru_row_witness :
  dict_get (ru_dict_of (filter is_ru
              (Translation.mk 0 (lit "bye") (lit "ru") (lit "old") :: demo_rows)))
           (lit "bye") = Some (lit "B").
Proof.
  apply (@commit_batch_text_is_last_ru_row
           [Translation.mk 0 (lit "bye") (lit "ru") (lit "old");
            Translation.mk 1 (lit "welcome") (lit "ru") (lit "W");
            Translation.mk 2 (lit "greeting") (lit "ru") (lit "G")]
           [Translation.mk 4 (lit "greeting") (lit "en") (lit "Hello")]
           (Translation.mk 3 (lit "bye") (lit "ru") (lit "B"))).
  - reflexivity.
  - intros x [<-|[]]. vm_compute. reflexivity.
Defined.

Lemma set_mem_cons (k x : str) (ks : list str) :
  set_mem k (x :: ks) = str_eqb k x || set_mem k ks.
Proof. reflexivity. Qed.

Lemma str_eqb_sym (a b : str) : str_eqb a b = str_eqb b a.
Proof.
  destruct (str_eqb a b) eqn:E; symmetry.
  - apply str_eqb_eq. apply str_eqb_eq in E. congruence.
  - apply str_eqb_neq. apply str_eqb_neq in E. congruence.
Qed.

(** A dictionary filled from a list of keys by [d[k] = g k] where [g k]
    is there. *)
Lemma dict_pick_get {V} (g : str -> option V) (ks : list str) (k : str) :
  forall d0,
    dict_get (fold_left (fun d x => match g x with
                                    | Some t => dict_set d x t
                                    | None => d
                                    end) ks d0) k =
    match (if set_mem k ks then g k else None) with
    | Some t => Some t
    | None => dict_get d0 k
    end.
Proof.
  induction ks as [|x ks IH]; intros d0; cbn [fold_left]; [reflexivity|].
  rewrite IH, set_mem_cons.
  destruct (set_mem k ks) eqn:Em.
  - rewrite orb_true_r. destruct (g k) eqn:Eg; [reflexivity|].
    destruct (g x) eqn:Ex; [|reflexivity].
    rewrite dict_get_set. destruct (str_eqb x k) eqn:E; [|reflexivity].
    apply str_eqb_eq in E. congruence.
  - rewrite orb_false_r, (str_eqb_sym k x).
    destruct (str_eqb x k) eqn:E.
    + apply str_eqb_eq in E. subst x.
      destruct (g k); [now rewrite dict_get_set, str_eqb_refl | reflexivity].
    + destruct (g x); [|reflexivity]. now rewrite dict_get_set, E.
Qed.

Lemma set_mem_In (k : str) (ks : list str) : set_mem k ks = true <-> In k ks.
Proof.
  unfold set_mem. rewrite existsb_exists. split.
  - intros [x [Hin E]]. apply str_eqb_eq in E. now subst.
  - intros H. exists k. split; [exact H | apply str_eqb_refl].
Qed.

(** The preview batch is the commit batch without the reserved key: for
    every other key the two batches carry the same text, and ["welcome"]
    is never in the preview batch. *)
Theorem preview_batch_is_commit_batch_without_welcome
    (rows : list Translation.t) (k : str) :
  dict_get (preview_batch rows) k =
  if str_eqb k WELCOME then None
  else dict_get (ru_dict_of (filter is_ru rows)) k.
Proof.
  unfold preview_batch. cbv zeta.
  rewrite (dict_pick_get (fun x => dict_get (dict_get_default [] (group_rows rows) x) RU)).
  cbn [dict_get]. rewrite ru_dict_of_get. unfold shown.
  destruct (set_mem k (filtered_keys_of (group_rows rows))) eqn:Em.
  - apply set_mem_In, filtered_keys_spec in Em as [Hne _].
    apply str_eqb_neq in Hne. rewrite Hne.
    destruct (dict_get _ RU); reflexivity.
  - destruct (str_eqb k WELCOME) eqn:Ew; [reflexivity|].
    destruct (dict_get (dict_get_default [] (group_rows rows) k) RU) eqn:Eg;
      [|reflexivity].
    exfalso. apply str_eqb_neq in Ew.
    assert (Hin : In k (filtered_keys_of (group_rows rows))).
    { apply filtered_keys_spec. split; [exact Ew|]. exists RU.
      apply group_rows_inner. unfold dict_mem. now rewrite Eg. }
    apply set_mem_In in Hin. congruence.
Qed.

(** ** The preview page *)

Lemma parse_NoDup (flags : dict str) (upper : str -> str) (target : str)
    (lines : list str) :
  forall d, NoDup (dict_keys d) ->
    NoDup (dict_keys (fold_left (parse_line flags upper target) lines d)).
Proof.
  induction lines as [|line lines IH]; intros d Hd; cbn [fold_left]; [exact Hd|].
  apply IH. unfold parse_line.
  destruct (contains COLON line); [|exact Hd].
  destruct (split_colon line) as [[k v]|]; [|exact Hd].
  apply dict_keys_set_NoDup. exact Hd.
Qed.

(** The reply mapping has one entry per key. *)
Lemma translate_with_gpt_NoDup (flags : dict str) (upper : str -> str)
    (chat : str -> str -> str -> exn + str) (batch : dict str)
    (target lang_name emoji : str) (g : dict str) :
  translate_with_gpt flags upper chat batch target lang_name emoji = inr g ->
  NoDup (dict_keys g).
Proof.
  unfold translate_with_gpt. destruct (chat _ _ _); [discriminate|].
  intros H; inversion H. apply parse_NoDup. constructor.
Qed.

Lemma shown_set2 (tr : dict (dict str)) (k0 c v0 k l : str) :
  shown (set2 tr k0 c v0) k l =
  if str_eqb k0 k && str_eqb c l then Some v0 else shown tr k l.
Proof.
  unfold shown, set2. rewrite dict_get_default_set.
  destruct (str_eqb k0 k) eqn:E; cbn [andb]; [|reflexivity].
  apply str_eqb_eq in E. subst k0. rewrite dict_get_set.
  destruct (str_eqb c l); reflexivity.
Qed.

Lemma merge_preview_untouched (c : str) (g : dict str) (k l : str) :
  forall tr, ~ In k (dict_keys g) ->
    shown (merge_preview c g tr) k l = shown tr k l.
Proof.
  unfold merge_preview.
  induction g as [|[k0 v0] g IH]; intros tr Hk; cbn [fold_left]; [reflexivity|].
  rewrite IH by (intros H; apply Hk; right; exact H).
  rewrite shown_set2. cbn [fst snd].
  destruct (str_eqb k0 k) eqn:E; [|reflexivity].
  apply str_eqb_eq in E. exfalso. apply Hk. left. exact E.
Qed.

Lemma merge_preview_shown (c : str) (g : dict str) (k v : str) :
  forall tr, NoDup (dict_keys g) -> dict_get g k = Some v ->
    shown (merge_preview c g tr) k c = Some v.
Proof.
  induction g as [|[k0 v0] g IH]; intros tr Hnd Hget; [discriminate|].
  cbn [dict_keys map fst] in Hnd. inversion Hnd as [|? ? Hnot Hnd']; subst.
  cbn [dict_get] in Hget. unfold merge_preview. cbn [fold_left fst snd].
  fold (merge_preview c g (set2 tr k0 c v0)).
  destruct (str_eqb k0 k) eqn:E.
  - apply str_eqb_eq in E. subst k0. inversion Hget; subst v0.
    rewrite merge_preview_untouched by exact Hnot.
    now rewrite shown_set2, !str_eqb_refl.
  - apply IH; assumption.
Qed.

Lemma show_translations_preview (flags : dict str) (upper : str -> str)
    (chat : str -> str -> str -> exn + str) (db : DB) (c : str)
    (sl : Language.t) :
  find (fun l => str_eqb (Language.code l) c) (languages db) = Some sl ->
  exists langs missing_langs total filled missing,
    serve (show_translations flags upper chat (Some c)) db =
    match translate_with_gpt flags upper chat (preview_batch (translations db))
            (Language.code sl) (Language.name_ru sl) (emoji_or_empty sl) with
    | inl e => (inl (HTTPException 500 INTERNAL_SERVER_ERROR), db)
    | inr g =>
        (inr (mkContext
                (merge_preview (Language.code sl) g (group_rows (translations db)))
                langs missing_langs (Some sl) g total filled missing), db)
    end.
Proof.
  intros Hfind.
  unfold serve, show_translations, try_except, with_session.
  unfold bind at 1. unfold bind at 1. unfold select_translations.
  unfold bind at 1. unfold select_languages, ret at 1.
  cbn [view committed fst snd]. rewrite Hfind.
  unfold bind. rewrite await_run.
  fold (preview_batch (translations db)).
  do 5 eexists.
  destruct (translate_with_gpt _ _ _ _ _ _ _) as [e|g]; reflexivity.
Qed.

(** The preview asks the capability for the preview batch.  When the call
    raises, the page is answered 500 with the fixed detail
    "Internal Server Error", whatever the exception was; when it returns,
    the reply is handed to the template as [temp_translations] with the
    selected language.  The catalogue is the same either way. *)
Theorem preview_outcomes (flags : dict str) (upper : str -> str)
    (chat : str -> str -> str -> exn + str) (db : DB) (c : str)
    (sl : Language.t) :
  find (fun l => str_eqb (Language.code l) c) (languages db) = Some sl ->
  let answer :=
    translate_with_gpt flags upper chat (preview_batch (translations db))
      (Language.code sl) (Language.name_ru sl) (emoji_or_empty sl) in
  let out := serve (show_translations flags upper chat (Some c)) db in
  (forall e, answer = inl e ->
     out = (inl (HTTPException 500 INTERNAL_SERVER_ERROR), db)) /\
  (forall g, answer = inr g ->
     exists ctx, out = (inr ctx, db) /\
       ctx_temp_translations ctx = g /\
       ctx_selected_lang ctx = Some sl).
Proof.
  intros Hfind. cbv zeta.
  destruct (show_translations_preview flags upper chat db c Hfind)
    as [langs [ml [total [filled [missing Hrun]]]]].
  rewrite Hrun. split.
  - intros e ->. reflexivity.
  - intros g ->. eexists. split; [reflexivity|]. split; reflexivity.
Qed.

Lemma preview_outcomes_witness :
  serve (show_translations demo_flags demo_upper chat_down (Some (lit "pl")))
        demo_db =
  (inl (HTTPException 500 (lit "Internal Server Error")), demo_db).
Proof.
  exact (proj1 (@preview_outcomes demo_flags demo_upper chat_down demo_db
                  (lit "pl") lang_pl eq_refl)
               (Failure (lit "connection refused")) eq_refl).
Defined.

(** On the preview page every key of the reply shows the reply's text for
    the selected language, also where the catalogue has a stored text for
    that pair; the stored text is not changed. *)
Theorem preview_shows_reply_over_stored (flags : dict str)
    (upper : str -> str) (chat : str -> str -> str -> exn + str) (db : DB)
    (c : str) (sl : Language.t) (g : dict str) (k v : str) :
  find (fun l => str_eqb (Language.code l) c) (languages db) = Some sl ->
  translate_with_gpt flags upper chat (preview_batch (translations db))
    (Language.code sl) (Language.name_ru sl) (emoji_or_empty sl) = inr g ->
  dict_get g k = Some v ->
  exists ctx,
    serve (show_translations flags upper chat (Some c)) db = (inr ctx, db) /\
    shown (ctx_translations ctx) k (Language.code sl) = Some v.
Proof.
  intros Hfind Hg Hk.
  destruct (show_translations_preview flags upper chat db c Hfind)
    as [langs [ml [total [filled [missing Hrun]]]]].
  rewrite Hg in Hrun. eexists. split; [exact Hrun|].
  cbn [ctx_translations]. apply merge_preview_shown; [|exact Hk].
  eapply translate_with_gpt_NoDup. exact Hg.
Qed.

Lemma preview_shows_reply_over_stored_witness :
  exists ctx,
    serve (show_translations demo_flags demo_upper chat_three_lines
             (Some (lit "en"))) demo_db = (inr ctx, demo_db) /\
    shown (ctx_translations ctx) (lit "greeting") (lit "en") = Some (lit "Hi") /\
    shown (group_rows (translations demo_db)) (lit "greeting") (lit "en")
      = Some (lit "Hello").
Proof.
  destruct (@preview_shows_reply_over_stored demo_flags demo_upper
              chat_three_lines demo_db (lit "en") lang_en
              [(lit "greeting", lit "Hi"); (lit "bye", GB_FLAG); (lit "x", [])]
              (lit "greeting") (lit "Hi") eq_refl eq_refl eq_refl)
    as [ctx [Hrun Hshown]].
  exists ctx. split; [exact Hrun|]. split; [exact Hshown|].
  vm_compute. reflexivity.
Defined.

(** ** The batch of [translate_missing] *)

Lemma missing_keys_spec (rows : list Translation.t) (lang k : str) :
  In k (missing_keys_of rows lang) <->
  has_entry rows k RU /\ ~ has_entry rows k lang.
Proof.
  unfold missing_keys_of. rewrite in_map_iff. split.
  - intros [[k' langs] [Hk Hin]]. cbn [fst] in Hk. subst k'.
    apply filter_In in Hin as [Hin Hcond]. cbn [snd] in Hcond.
    apply andb_true_iff in Hcond as [Hru Hno].
    apply negb_true_iff in Hno.
    apply (dict_get_In _ _ _ (existing_of_NoDup rows)) in Hin.
    assert (Hd : dict_get_default [] (existing_of rows) k = langs)
      by (unfold dict_get_default; now rewrite Hin).
    split.
    + apply existing_of_inner. now rewrite Hd.
    + intros H. apply existing_of_inner in H. rewrite Hd in H. congruence.
  - intros [Hru Hno].
    assert (Hmem : dict_mem (existing_of rows) k = true)
      by (apply existing_of_mem; eauto).
    unfold dict_mem in Hmem.
    destruct (dict_get (existing_of rows) k) as [langs|] eqn:Hget;
      [|discriminate].
    assert (Hd : dict_get_default [] (existing_of rows) k = langs)
      by (unfold dict_get_default; now rewrite Hget).
    exists (k, langs). split; [reflexivity|].
    apply filter_In. split; [apply dict_In_get; exact Hget|].
    cbn [snd]. apply andb_true_iff. split.
    + rewrite <- Hd. apply existing_of_inner. exact Hru.
    + apply negb_true_iff. destruct (set_mem lang langs) eqn:E; [|reflexivity].
      exfalso. apply Hno. apply existing_of_inner. now rewrite Hd.
Qed.

Lemma missing_keys_NoDup (rows : list Translation.t) (lang : str) :
  NoDup (missing_keys_of rows lang).
Proof.
  unfold missing_keys_of. apply NoDup_map_filter. apply existing_of_NoDup.
Qed.

Lemma ru_texts_of_pick (rows : list Translation.t) (ks : list str) :
  forall d0,
    fold_left
      (fun d k =>
         match find (fun r => str_eqb (Translation.key r) k
                              && str_eqb (Translation.lang r) RU) rows with
         | Some r => dict_set d k (Translation.text r)
         | None => d
         end) ks d0 =
    fold_left
      (fun d k => match first_ru_text rows k with
                  | Some t => dict_set d k t
                  | None => d
                  end) ks d0.
Proof.
  induction ks as [|k ks IH]; intros d0; cbn [fold_left]; [reflexivity|].
  rewrite IH. f_equal. unfold first_ru_text, matches.
  destruct (find _ rows); reflexivity.
Qed.

Lemma dict_pick_keys {V} (g : str -> option V) (ks : list str) :
  forall d0,
    NoDup ks ->
    (forall k, In k ks -> dict_mem d0 k = false) ->
    (forall k, In k ks -> g k <> None) ->
    dict_keys (fold_left (fun d x => match g x with
                                     | Some t => dict_set d x t
                                     | None => d
                                     end) ks d0) = dict_keys d0 ++ ks.
Proof.
  induction ks as [|x ks IH]; intros d0 Hnd Hfresh Hg; cbn [fold_left].
  - symmetry. apply app_nil_r.
  - inversion Hnd as [|? ? Hnot Hnd']; subst.
    destruct (g x) as [t|] eqn:Ex;
      [|exfalso; apply (Hg x); [left; reflexivity | exact Ex]].
    rewrite IH.
    + rewrite dict_keys_set, (Hfresh x (or_introl eq_refl)), <- app_assoc.
      reflexivity.
    + exact Hnd'.
    + intros k Hk. rewrite dict_mem_set, (Hfresh k (or_intror Hk)), orb_false_r.
      apply str_eqb_neq. intros ->. contradiction.
    + intros k Hk. apply Hg. right; exact Hk.
Qed.

Lemma find_first {A} (f : A -> bool) (pre post : list A) (x : A) :
  (forall y, In y pre -> f y = false) -> f x = true ->
  find f (pre ++ x :: post) = Some x.
Proof.
  induction pre as [|y pre IH]; intros Hpre Hx; cbn [app find].
  - now rewrite Hx.
  - rewrite (Hpre y (or_introl eq_refl)). apply IH; [|exact Hx].
    intros z Hz. apply Hpre. right; exact Hz.
Qed.

Lemma find_has_entry (rows : list Translation.t) (k l : str) :
  has_entry rows k l -> find (matches k l) rows <> None.
Proof.
  intros [r [Hin H]] Hnone.
  apply (find_none _ _ Hnone) in Hin.
  apply matches_spec in H. congruence.
Qed.

(** [translate_missing] asks the capability for the missing keys, in the
    order the computation lists them, each with the text of the first
    Russian row of the key; what the call gives, result or exception, is
    what the route gives, and nothing is written. *)
Theorem translate_missing_batch (flags : dict str) (upper : str -> str)
    (chat : str -> str -> str -> exn + str) (db : DB) (lang : str)
    (l : Language.t) :
  find (fun x => str_eqb (Language.code x) lang) (languages db) = Some l ->
  let rows := translations db in
  let batch := ru_texts_of rows (missing_keys_of rows lang) in
  serve (translate_missing flags upper chat lang) db =
    (translate_with_gpt flags upper chat batch lang (Language.name_ru l)
       (emoji_or_empty l), db) /\
  dict_keys batch = missing_keys_of rows lang /\
  (forall k, In k (missing_keys_of rows lang) ->
     dict_get batch k = first_ru_text rows k) /\
  (forall pre r post,
     rows = pre ++ r :: post -> Translation.lang r = RU ->
     (forall x, In x pre -> matches (Translation.key r) RU x = false) ->
     first_ru_text rows (Translation.key r) = Some (Translation.text r)).
Proof.
  intros Hfind. cbv zeta.
  split; [rewrite translate_missing_serve, Hfind; reflexivity|].
  unfold ru_texts_of. rewrite ru_texts_of_pick.
  assert (Hsome : forall k, In k (missing_keys_of (translations db) lang) ->
                            first_ru_text (translations db) k <> None).
  { intros k Hk. apply missing_keys_spec in Hk as [Hru _].
    unfold first_ru_text. pose proof (find_has_entry Hru) as Hf.
    destruct (find (matches k RU) (translations db)); cbn [option_map];
      [discriminate | congruence]. }
  split; [|split].
  - rewrite dict_pick_keys; [reflexivity | apply missing_keys_NoDup | reflexivity
                            | exact Hsome].
  - intros k Hk. rewrite dict_pick_get. cbn [dict_get].
    apply set_mem_In in Hk. rewrite Hk.
    destruct (first_ru_text _ k) eqn:E; [reflexivity|].
    reflexivity.
  - intros pre r post Hrows Hru Hpre. unfold first_ru_text. rewrite Hrows.
    rewrite (find_first _ _ _ _ Hpre); [reflexivity|].
    apply matches_spec. split; [reflexivity | exact Hru].
Qed.

Lemma translate_missing_batch_witness :
  dict_keys (ru_texts_of demo_rows (missing_keys_of demo_rows (lit "en")))
  = [lit "welcome"; lit "bye"] /\
  dict_get (ru_texts_of demo_rows (missing_keys_of demo_rows (lit "en")))
           (lit "bye") = Some (lit "B").
Proof.
  destruct (@translate_missing_batch demo_flags demo_upper chat_three_lines
              demo_db (lit "en") lang_en eq_refl) as [_ [Hkeys [Hget _]]].
  unfold demo_db in Hkeys, Hget. cbn [translations] in Hkeys, Hget.
  split.
  - rewrite Hkeys. vm_compute. reflexivity.
  - rewrite Hget; [vm_compute; reflexivity|].
    vm_compute. right; left; reflexivity.
Defined.

(** ** Which languages the page shows, and in what order *)

Lemma show_translations_langs (flags : dict str) (upper : str -> str)
    (chat : str -> str -> str -> exn + str) (add : option str) (db db' : DB)
    (ctx : Context) :
  serve (show_translations flags upper chat add) db = (inr ctx, db') ->
  ctx_selected_lang ctx = selected_of add (languages db) /\
  ctx_langs ctx =
    sorted (selection (selected_of add (languages db))
              (used_codes (translations db)) (languages db)) /\
  ctx_missing_langs ctx =
    filter (fun l => negb (set_mem (Language.code l)
                             (used_codes (translations db))))
           (languages db).
Proof.
  unfold serve, show_translations, try_except, with_session.
  unfold bind at 1. unfold bind at 1. unfold select_translations.
  unfold bind at 1. unfold select_languages, ret at 1.
  cbn [view committed fst snd].
  fold (selected_of add (languages db)).
  destruct (selected_of add (languages db)) as [sl|].
  - unfold bind. rewrite await_run.
    destruct (translate_with_gpt _ _ _ _ _ _ _) as [e|g]; [discriminate|].
    unfold ret. intros H; inversion H; subst; clear H.
    cbn [ctx_selected_lang ctx_langs ctx_missing_langs]. repeat split.
  - unfold ret. intros H; inversion H; subst; clear H.
    cbn [ctx_selected_lang ctx_langs ctx_missing_langs]. repeat split.
Qed.

Lemma str_compare_refl (a : str) : str_compare a a = Eq.
Proof.
  induction a as [|x a IH]; cbn [str_compare]; [reflexivity|].
  now rewrite N.compare_refl.
Qed.

Lemma str_compare_antisym (a b : str) :
  str_compare b a = CompOpp (str_compare a b).
Proof.
  revert b. induction a as [|x a IH]; intros [|y b]; cbn [str_compare];
    try reflexivity.
  rewrite (N.compare_antisym x y).
  destruct (N.compare x y); cbn [CompOpp]; [apply IH | reflexivity | reflexivity].
Qed.

Lemma str_compare_trans_le (a b c : str) :
  str_compare a b <> Gt -> str_compare b c <> Gt -> str_compare a c <> Gt.
Proof.
  revert b c. induction a as [|x a IH]; intros [|y b] [|z c];
    cbn [str_compare]; try congruence.
  destruct (N.compare_spec x y) as [->|Hxy|Hxy]; try congruence.
  - destruct (N.compare z y) eqn:Ezy; rewrite (N.compare_antisym z y), Ezy;
      cbn [CompOpp]; try congruence.
    apply IH.
  - intros _. destruct (N.compare_spec y z) as [->|Hyz|Hyz]; try congruence.
    + intros _. apply N.compare_lt_iff in Hxy. rewrite Hxy. congruence.
    + intros _. assert (H : (x < z)%N) by lia.
      apply N.compare_lt_iff in H. rewrite H. congruence.
Qed.

Lemma key_le_total (a b : bool * str) : key_le a b = false -> key_le b a = true.
Proof.
  destruct a as [[|] s], b as [[|] t]; unfold key_le; cbn [fst snd];
    try congruence;
    rewrite (str_compare_antisym s t); destruct (str_compare s t);
    cbn [CompOpp]; congruence.
Qed.

Lemma key_le_trans (a b c : bool * str) :
  key_le a b = true -> key_le b c = true -> key_le a c = true.
Proof.
  destruct a as [[|] s], b as [[|] t], c as [[|] u]; unfold key_le;
    cbn [fst snd]; try congruence;
    intros H1 H2;
    assert (H : str_compare s u <> Gt)
      by (apply (str_compare_trans_le s t u);
          [destruct (str_compare s t) | destruct (str_compare t u)];
          congruence);
    destruct (str_compare s u); congruence.
Qed.

Lemma insert_sorted_perm (x : Language.t) (l : list Language.t) :
  Permutation (insert_sorted x l) (x :: l).
Proof.
  induction l as [|y l IH]; cbn [insert_sorted]; [reflexivity|].
  destruct (key_le _ _); [reflexivity|].
  rewrite IH. apply perm_swap.
Qed.

Lemma sorted_perm (l : list Language.t) : Permutation (sorted l) l.
Proof.
  unfold sorted. induction l as [|x l IH]; cbn [fold_right]; [reflexivity|].
  rewrite insert_sorted_perm. now constructor.
Qed.

Lemma insert_sorted_sorted (x : Language.t) (l : list Language.t) :
  StronglySorted lang_le l -> StronglySorted lang_le (insert_sorted x l).
Proof.
  induction l as [|y l IH]; intros Hs; cbn [insert_sorted].
  - repeat constructor.
  - inversion Hs as [|? ? Hl Hall]; subst.
    destruct (key_le (sort_key x) (sort_key y)) eqn:E.
    + constructor; [exact Hs|]. constructor; [exact E|].
      eapply Forall_impl; [|exact Hall].
      intros z Hz. unfold lang_le in *. eapply key_le_trans; eassumption.
    + constructor; [apply IH; exact Hl|].
      apply Forall_forall. intros z Hz.
      apply (Permutation_in _ (insert_sorted_perm x l)) in Hz.
      destruct Hz as [<-|Hz].
      * apply key_le_total. exact E.
      * rewrite Forall_forall in Hall. apply Hall. exact Hz.
Qed.

Lemma sorted_sorted (l : list Language.t) : StronglySorted lang_le (sorted l).
Proof.
  unfold sorted. induction l as [|x l IH]; cbn [fold_right]; [constructor|].
  apply insert_sorted_sorted. exact IH.
Qed.

Lemma StronglySorted_suffix {A} (R : A -> A -> Prop) (pre l : list A) :
  StronglySorted R (pre ++ l) -> StronglySorted R l.
Proof.
  induction pre as [|x pre IH]; cbn [app]; [auto|].
  intros H. inversion H; subst. auto.
Qed.

Lemma lang_le_spec (a b : Language.t) :
  lang_le a b <->
  (Language.code a = RU /\ Language.code b <> RU) \/
  ((Language.code a = RU <-> Language.code b = RU) /\
   str_compare (Language.name_ru a) (Language.name_ru b) <> Gt).
Proof.
  unfold lang_le, key_le, sort_key. cbn [fst snd].
  pose proof (str_eqb_eq (Language.code a) RU) as Ha.
  pose proof (str_eqb_eq (Language.code b) RU) as Hb.
  destruct (str_eqb (Language.code a) RU);
    destruct (str_eqb (Language.code b) RU); cbn [negb];
    destruct (str_compare (Language.name_ru a) (Language.name_ru b));
    split; intros H;
    try reflexivity; try discriminate;
    try (right; split; [intuition congruence | congruence]);
    try (left; split; intuition congruence);
    try (exfalso; intuition congruence).
Qed.

(** The languages on the page are those chosen for display, each as often
    as chosen, ordered by the sort key: wherever one language stands before
    another, a Russian-coded one is never behind a language of another
    code, and two languages that are both Russian-coded or both not stand
    in ascending order of their Russian names. *)
Theorem page_languages_in_order (flags : dict str) (upper : str -> str)
    (chat : str -> str -> str -> exn + str) (add : option str) (db db' : DB)
    (ctx : Context) :
  serve (show_translations flags upper chat add) db = (inr ctx, db') ->
  Permutation (ctx_langs ctx)
    (selection (selected_of add (languages db))
       (used_codes (translations db)) (languages db)) /\
  (forall pre a post b,
     ctx_langs ctx = pre ++ a :: post -> In b post ->
     (Language.code b = RU -> Language.code a = RU) /\
     ((Language.code a = RU <-> Language.code b = RU) ->
      str_compare (Language.name_ru a) (Language.name_ru b) <> Gt)).
Proof.
  intros Hrun.
  destruct (show_translations_langs _ _ _ _ _ Hrun) as [_ [Hlangs _]].
  rewrite Hlangs. split; [apply sorted_perm|].
  intros pre a post b Hsplit Hb.
  pose proof (sorted_sorted (selection (selected_of add (languages db))
                (used_codes (translations db)) (languages db))) as Hs.
  rewrite Hsplit in Hs. apply StronglySorted_suffix in Hs.
  inversion Hs as [|? ? _ Hall]; subst.
  rewrite Forall_forall in Hall. specialize (Hall b Hb).
  apply lang_le_spec in Hall. split.
  - intros Hbru. destruct Hall as [[_ H]|[H _]]; [contradiction | tauto].
  - intros Hsame. destruct Hall as [[H1 H2]|[_ H]]; [tauto | exact H].
Qed.

Lemma page_languages_in_order_witness :
  exists ctx,
    serve (show_translations demo_flags demo_upper chat_three_lines None) demo_db
      = (inr ctx, demo_db) /\
    ctx_langs ctx = [lang_ru; lang_en] /\
    Permutation (ctx_langs ctx) [lang_en; lang_ru].
Proof.
  destruct (show_translations_returns demo_flags demo_upper chat_three_lines
              demo_db) as [ctx Hrun].
  destruct (@page_languages_in_order demo_flags demo_upper chat_three_lines
              None demo_db demo_db ctx Hrun) as [Hperm _].
  exists ctx. split; [exact Hrun|]. split; [|exact Hperm].
  vm_compute in Hrun. inversion Hrun. reflexivity.
Defined.

Lemma used_codes_snoc (rows : list Translation.t) (r : Translation.t) :
  used_codes (rows ++ [r]) = set_add (Translation.lang r) (used_codes rows).
Proof. unfold used_codes. rewrite fold_left_app. reflexivity. Qed.

Lemma used_codes_spec (rows : list Translation.t) (c : str) :
  set_mem c (used_codes rows) = true <->
  exists r, In r rows /\ Translation.lang r = c.
Proof.
  induction rows as [|r rows IH] using rev_ind.
  - split; [discriminate | intros [x [[] _]]].
  - rewrite used_codes_snoc, set_mem_add, orb_true_iff, str_eqb_eq, IH. split.
    + intros [->|[x [Hin Hx]]].
      * exists r. split; [apply in_app_iff; right; left; reflexivity | reflexivity].
      * exists x. split; [apply in_app_iff; left; exact Hin | exact Hx].
    + intros [x [Hin Hx]]. apply in_app_iff in Hin as [Hin|[<-|[]]]; eauto.
Qed.

(** Without a language selected (no [?add=], or a code the directory does
    not have) the page shows the languages that have at least one row and
    offers the others as missing: every language of the directory is in
    exactly one of the two lists. *)
Theorem page_languages_used_or_missing (flags : dict str) (upper : str -> str)
    (chat : str -> str -> str -> exn + str) (add : option str) (db db' : DB)
    (ctx : Context) :
  serve (show_translations flags upper chat add) db = (inr ctx, db') ->
  selected_of add (languages db) = None ->
  forall l,
    (In l (ctx_langs ctx) <->
     In l (languages db) /\
     exists r, In r (translations db) /\ Translation.lang r = Language.code l) /\
    (In l (ctx_missing_langs ctx) <->
     In l (languages db) /\
     ~ exists r, In r (translations db) /\ Translation.lang r = Language.code l) /\
    (In l (languages db) ->
     (In l (ctx_langs ctx) /\ ~ In l (ctx_missing_langs ctx)) \/
     (In l (ctx_missing_langs ctx) /\ ~ In l (ctx_langs ctx))).
Proof.
  intros Hrun Hsel l.
  destruct (show_translations_langs _ _ _ _ _ Hrun) as [_ [Hlangs Hmissing]].
  rewrite Hsel in Hlangs. cbn [selection] in Hlangs.
  assert (H1 : In l (ctx_langs ctx) <->
               In l (languages db) /\
               exists r, In r (translations db) /\
                         Translation.lang r = Language.code l).
  { rewrite Hlangs. split.
    - intros H. apply (Permutation_in _ (sorted_perm _)) in H.
      apply filter_In in H as [Hin Hu]. apply used_codes_spec in Hu. auto.
    - intros [Hin Hu]. apply (Permutation_in _ (Permutation_sym (sorted_perm _))).
      apply filter_In. split; [exact Hin | apply used_codes_spec; exact Hu]. }
  assert (H2 : In l (ctx_missing_langs ctx) <->
               In l (languages db) /\
               ~ exists r, In r (translations db) /\
                           Translation.lang r = Language.code l).
  { rewrite Hmissing, filter_In, negb_true_iff. split.
    - intros [Hin Hu]. split; [exact Hin|]. intros H.
      apply used_codes_spec in H. congruence.
    - intros [Hin Hu]. split; [exact Hin|].
      destruct (set_mem _ _) eqn:E; [|reflexivity].
      exfalso. apply Hu. apply used_codes_spec. exact E. }
  split; [exact H1|]. split; [exact H2|].
  intros Hin.
  destruct (set_mem (Language.code l) (used_codes (translations db))) eqn:E.
  - left. apply used_codes_spec in E. split; [apply H1; auto|].
    intros H. apply H2 in H. tauto.
  - right. assert (Hn : ~ exists r, In r (translations db) /\
                           Translation.lang r = Language.code l).
    { intros H. apply used_codes_spec in H. congruence. }
    split; [apply H2; auto|]. intros H. apply H1 in H. tauto.
Qed.

Lemma page_languages_used_or_missing_witness :
  exists ctx,
    serve (show_translations demo_flags demo_upper chat_three_lines None) demo_db
      = (inr ctx, demo_db) /\
    In lang_en (ctx_langs ctx) /\ In lang_pl (ctx_missing_langs ctx) /\
    ~ In lang_pl (ctx_langs ctx).
Proof.
  destruct (show_translations_returns demo_flags demo_upper chat_three_lines
              demo_db) as [ctx Hrun].
  pose proof (@page_languages_used_or_missing demo_flags demo_upper
                chat_three_lines None demo_db demo_db ctx Hrun eq_refl) as H.
  exists ctx. split; [exact Hrun|].
  assert (Hpl : ~ exists r, In r (translations demo_db) /\
                  Translation.lang r = Language.code lang_pl).
  { intros [r [Hin Hr]].
    repeat (destruct Hin as [<-|Hin]; [vm_compute in Hr; discriminate|]).
    destruct Hin. }
  split; [|split].
  - apply (H lang_en). split; [left; reflexivity|].
    exists (Translation.mk 4 (lit "greeting") (lit "en") (lit "Hello")).
    split; [do 3 right; left; reflexivity | reflexivity].
  - apply (H lang_pl). split; [right; right; left; reflexivity | exact Hpl].
  - intros Hin. apply (H lang_pl) in Hin. tauto.
Defined.

(** With a language of the directory selected by [?add=], the page shows
    the Russian-coded languages and the selected one, and no other:
    languages that have rows are left out unless they are one of these. *)
Theorem preview_languages_are_ru_and_selected (flags : dict str)
    (upper : str -> str) (chat : str -> str -> str -> exn + str) (c : str)
    (db db' : DB) (ctx : Context) (sl : Language.t) :
  serve (show_translations flags upper chat (Some c)) db = (inr ctx, db') ->
  find (fun l => str_eqb (Language.code l) c) (languages db) = Some sl ->
  In sl (languages db) /\ Language.code sl = c /\
  forall l,
    In l (ctx_langs ctx) <->
    (In l (languages db) /\ Language.code l = RU) \/ l = sl.
Proof.
  intros Hrun Hfind.
  destruct (show_translations_langs _ _ _ _ _ Hrun) as [_ [Hlangs _]].
  cbn [selected_of] in Hlangs. rewrite Hfind in Hlangs. cbn [selection] in Hlangs.
  pose proof (find_some _ _ Hfind) as [Hin Hc]. apply str_eqb_eq in Hc.
  split; [exact Hin|]. split; [exact Hc|].
  intros l. rewrite Hlangs. split.
  - intros H. apply (Permutation_in _ (sorted_perm _)) in H.
    apply in_app_iff in H as [H|H].
    + apply filter_In in H as [H1 H2]. apply str_eqb_eq in H2. auto.
    + destruct (negb _); [destruct H as [<-|[]]; auto | destruct H].
  - intros H. apply (Permutation_in _ (Permutation_sym (sorted_perm _))).
    apply in_app_iff.
    destruct H as [[H1 H2]| ->].
    + left. apply filter_In. split; [exact H1 | apply str_eqb_eq; exact H2].
    + destruct (str_eqb (Language.code sl) RU) eqn:E; cbn [negb].
      * left. apply filter_In. split; [exact Hin | exact E].
      * right. left; reflexivity.
Qed.

Lemma preview_languages_are_ru_and_selected_witness :
  exists ctx,
    serve (show_translations demo_flags demo_upper chat_three_lines
             (Some (lit "pl"))) demo_db = (inr ctx, demo_db) /\
    In lang_pl (ctx_langs ctx) /\ ~ In lang_en (ctx_langs ctx).
Proof.
  assert (Hrun' : exists ctx,
            serve (show_translations demo_flags demo_upper chat_three_lines
                     (Some (lit "pl"))) demo_db = (inr ctx, demo_db))
    by (vm_compute; eexists; reflexivity).
  destruct Hrun' as [ctx Hrun].
  destruct (@preview_languages_are_ru_and_selected demo_flags demo_upper
              chat_three_lines (lit "pl") demo_db demo_db ctx lang_pl Hrun
              eq_refl) as [_ [_ H]].
  exists ctx. split; [exact Hrun|]. split.
  - apply H. right; reflexivity.
  - intros Hin. apply H in Hin as [[_ Hc]|Hc]; vm_compute in Hc; discriminate.
Defined.

(** A [?add=] code the directory does not have is not an error: the page
    is the ordinary page, and the capability is not consulted. *)
Theorem unknown_add_is_ordinary_page (flags : dict str) (upper : str -> str)
    (chat chat' : str -> str -> str -> exn + str) (c : str) (db : DB) :
  find (fun l => str_eqb (Language.code l) c) (languages db) = None ->
  serve (show_translations flags upper chat (Some c)) db =
  serve (show_translations flags upper chat' None) db /\
  exists ctx,
    serve (show_translations flags upper chat (Some c)) db = (inr ctx, db).
Proof.
  intros Hfind.
  assert (H : serve (show_translations flags upper chat (Some c)) db =
              serve (show_translations flags upper chat' None) db).
  { unfold serve, show_translations, try_except, with_session.
    unfold bind at 1. unfold bind at 1. unfold select_translations.
    unfold bind at 1. unfold select_languages, ret at 1.
    unfold bind at 1. unfold bind at 1. unfold bind at 1.
    unfold ret at 1.
    cbn [view committed fst snd]. rewrite Hfind. reflexivity. }
  split; [exact H|]. rewrite H. apply show_translations_returns.
Qed.

Lemma unknown_add_is_ordinary_page_witness :
  serve (show_translations demo_flags demo_upper chat_down (Some (lit "xx")))
        demo_db =
  serve (show_translations demo_flags demo_upper chat_three_lines None) demo_db.
Proof.
  exact (proj1 (@unknown_add_is_ordinary_page demo_flags demo_upper chat_down
                  chat_three_lines (lit "xx") demo_db eq_refl)).
Defined.

(** ** More on persistence *)

Lemma next_id_fresh (rows : list Translation.t) :
  ~ In (next_id rows) (List.map Translation.id rows).
Proof.
  intros H. apply in_map_iff in H as [r [Hid Hin]].
  pose proof (next_id_above _ _ Hin). lia.
Qed.

Lemma persist_rows_ids (target : str) (entries : dict str) :
  forall rows, NoDup (List.map Translation.id rows) ->
    NoDup (List.map Translation.id (persist_rows target entries rows)).
Proof.
  induction entries as [|kt entries IH]; intros rows Hnd; [exact Hnd|].
  rewrite persist_rows_cons. apply IH.
  destruct (is_empty (strip (snd kt))); [exact Hnd|].
  rewrite insert_ignore_declared, map_app. cbn [map Translation.id].
  apply NoDup_app; [exact Hnd | repeat constructor; simpl; tauto |].
  intros x Hx [<-|[]]. exact (next_id_fresh rows Hx).
Qed.

(** The primary key stays a key: if the ids of the catalogue are pairwise
    different before a persisting call, they are after it, whatever the
    request and whatever the capability answers. *)
Theorem persisting_keeps_ids_unique (flags : dict str) (upper : str -> str)
    (str_of_exn : exn -> str) (chat : str -> str -> str -> exn + str)
    (data : BulkSaveRequest) (lang : str) (db : DB) :
  NoDup (List.map Translation.id (translations db)) ->
  NoDup (List.map Translation.id
           (translations (snd (serve (save_translations_handler str_of_exn data) db))))
  /\
  NoDup (List.map Translation.id
           (translations (snd (serve (gpt_translation_handler flags upper
                                        str_of_exn chat lang) db)))).
Proof.
  intros Hnd. split.
  - rewrite save_translations_handler_serve. cbn [snd translations].
    apply persist_rows_ids. exact Hnd.
  - rewrite gpt_translation_handler_serve.
    destruct (find _ _) as [l|]; [|exact Hnd].
    destruct (translate_with_gpt _ _ _ _ _ _ _) as [e|d]; [exact Hnd|].
    cbn [snd translations]. apply persist_rows_ids. exact Hnd.
Qed.

Lemma persisting_keeps_ids_unique_witness :
  NoDup (List.map Translation.id
           (translations (snd (serve (gpt_translation_handler demo_flags
                                        demo_upper no_detail chat_three_lines
                                        (lit "en")) demo_db)))).
Proof.
  refine (proj2 (@persisting_keeps_ids_unique demo_flags demo_upper no_detail
                   chat_three_lines (mkBulkSave (lit "en") []) (lit "en")
                   demo_db _)).
  vm_compute. repeat constructor; simpl; intuition discriminate.
Defined.

Lemma persist_rows_content (target : str) (entries : dict str) :
  forall rows, exists added,
    persist_rows target entries rows = rows ++ added /\
    List.map content added =
    List.map (stored_content target) (filter nonblank entries).
Proof.
  induction entries as [|kt entries IH]; intros rows.
  - exists []. split; [symmetry; apply app_nil_r | reflexivity].
  - rewrite persist_rows_cons. cbn [filter]. unfold nonblank at 1.
    destruct (is_empty (strip (snd kt))); cbn [negb].
    + apply IH.
    + rewrite insert_ignore_declared.
      destruct (IH (rows ++ [Translation.mk (next_id rows)
                                (varchar KEY_WIDTH (fst kt))
                                (varchar LANG_WIDTH target) (snd kt)]))
        as [added [He Hc]].
      exists (Translation.mk (next_id rows) (varchar KEY_WIDTH (fst kt))
                (varchar LANG_WIDTH target) (snd kt) :: added).
      split; [rewrite He, <- app_assoc; reflexivity|].
      cbn [map]. rewrite Hc. reflexivity.
Qed.

(** [/translations/save] never fails and never checks the language: for
    any language code, in the directory or not, it appends one row per
    entry whose text is not blank, in the order of the mapping.  The row
    holds the key cut to the 100 characters of its column, the code cut to
    the 3 characters of its column, and the text exactly as sent (the text
    is not stripped); when the code and the keys are within those widths,
    the rows hold them exactly as sent.  The rows that were there and the
    directory are untouched. *)
Theorem save_stores_entries_cut_to_width (str_of_exn : exn -> str)
    (data : BulkSaveRequest) (db : DB) :
  exists added,
    serve (save_translations_handler str_of_exn data) db =
      (inr (mkSaved OK (Z.of_nat (length (save_translations data)))),
       mkDB (translations db ++ added) (languages db)) /\
    List.map content added =
    List.map (fun kt => (varchar KEY_WIDTH (fst kt),
                         (varchar LANG_WIDTH (save_lang data), snd kt)))
             (filter nonblank (save_translations data)) /\
    ((length (save_lang data) <= LANG_WIDTH)%nat ->
     (forall kt, In kt (save_translations data) ->
                 (length (fst kt) <= KEY_WIDTH)%nat) ->
     List.map content added =
     List.map (fun kt => (fst kt, (save_lang data, snd kt)))
              (filter nonblank (save_translations data))).
Proof.
  destruct (persist_rows_content (save_lang data) (save_translations data)
              (translations db)) as [added [He Hc]].
  exists added. split; [|split; [exact Hc|]].
  - rewrite save_translations_handler_serve, He. reflexivity.
  - intros Hl Hk. rewrite Hc. apply map_ext_in. intros kt Hin.
    apply filter_In in Hin as [Hin _]. unfold stored_content.
    now rewrite (varchar_fits _ Hl), (varchar_fits _ (Hk kt Hin)).
Qed.

Lemma save_stores_entries_cut_to_width_witness :
  List.map content
    (translations (snd (serve (save_translations_handler no_detail
                                 (mkBulkSave (lit "en-GB") [(long_key, lit " Hi ")]))
                              (mkDB [] [])))) =
  [(repeat 97%N 100, (lit "en-", lit " Hi "))].
Proof.
  destruct (@save_stores_entries_cut_to_width no_detail
              (mkBulkSave (lit "en-GB") [(long_key, lit " Hi ")]) (mkDB [] []))
    as [added [Hrun [Hc _]]].
  rewrite Hrun. cbn [snd translations app]. rewrite Hc.
  vm_compute. reflexivity.
Defined.

Lemma lstrip_blank (s : str) : forallb isspace (lstrip s) = forallb isspace s.
Proof.
  induction s as [|c s IH]; [reflexivity|]. cbn [lstrip].
  destruct (isspace c) eqn:E; [|reflexivity].
  cbn [forallb]. now rewrite E, IH.
Qed.

Lemma lstrip_nil (s : str) : is_empty (lstrip s) = forallb isspace s.
Proof.
  induction s as [|c s IH]; [reflexivity|]. cbn [lstrip forallb].
  destruct (isspace c); [exact IH | reflexivity].
Qed.

Lemma forallb_rev {A} (f : A -> bool) (l : list A) :
  forallb f (rev l) = forallb f l.
Proof.
  induction l as [|x l IH]; [reflexivity|]. cbn [rev forallb].
  rewrite forallb_app, IH. cbn [forallb]. rewrite andb_true_r. apply andb_comm.
Qed.

Lemma is_empty_rev {A} (l : list A) :
  match rev l with [] => true | _ :: _ => false end =
  match l with [] => true | _ :: _ => false end.
Proof.
  destruct l as [|x l]; [reflexivity|]. cbn [rev].
  destruct (rev l); reflexivity.
Qed.

(** [not text.strip()] holds exactly for the texts made of whitespace
    only (the empty text among them). *)
Lemma blank_iff_whitespace (s : str) :
  is_empty (strip s) = forallb isspace s.
Proof.
  unfold strip, rstrip, is_empty. rewrite is_empty_rev.
  change (match lstrip (rev (lstrip s)) with [] => true | _ :: _ => false end)
    with (is_empty (lstrip (rev (lstrip s)))).
  now rewrite lstrip_nil, forallb_rev, lstrip_blank.
Qed.

(** A commit adds no row exactly when every text of the mapping is made
    of whitespace only; it still answers ok with the size of the
    mapping. *)
Theorem save_adds_nothing_iff_all_whitespace (str_of_exn : exn -> str)
    (data : BulkSaveRequest) (db : DB) :
  let out := serve (save_translations_handler str_of_exn data) db in
  fst out = inr (mkSaved OK (Z.of_nat (length (save_translations data)))) /\
  (snd out = db <->
   forall kt, In kt (save_translations data) -> forallb isspace (snd kt) = true).
Proof.
  cbv zeta. rewrite save_translations_handler_serve. cbn [fst snd].
  split; [reflexivity|].
  destruct (persist_rows_appends (save_lang data) (save_translations data)
              (translations db)) as [extra [He Hl]].
  rewrite He. split.
  - intros Hdb kt Hin.
    assert (Hlen : length (translations db ++ extra) = length (translations db))
      by (rewrite <- Hdb at 2; reflexivity).
    rewrite length_app in Hlen.
    assert (Hnil : filter nonblank (save_translations data) = [])
      by (apply length_zero_iff_nil; lia).
    rewrite filter_nil_iff in Hnil. specialize (Hnil kt Hin).
    unfold nonblank in Hnil. apply negb_false_iff in Hnil.
    now rewrite blank_iff_whitespace in Hnil.
  - intros Hall.
    assert (Hnil : filter nonblank (save_translations data) = []).
    { apply filter_nil_iff. intros kt Hin. unfold nonblank.
      rewrite blank_iff_whitespace, (Hall kt Hin). reflexivity. }
    rewrite Hnil in Hl. apply length_zero_iff_nil in Hl. subst extra.
    rewrite app_nil_r. destruct db; reflexivity.
Qed.

Lemma content_rows_split (target : str) (added : list Translation.t)
    (e1 e2 : dict str) (k t : str) :
  List.map content added =
  List.map (stored_content target) (e1 ++ (k, t) :: e2) ->
  exists a1 r a2,
    added = a1 ++ r :: a2 /\ content r = stored_content target (k, t) /\
    List.map content a2 = List.map (stored_content target) e2.
Proof.
  rewrite map_app. cbn [map]. intros H.
  apply map_eq_app in H as [a1 [a2' [-> [_ H2]]]].
  apply map_eq_cons in H2 as [r [a2 [-> [Hr H3]]]].
  exists a1, r, a2. auto.
Qed.

Lemma filter_split {A} (f : A -> bool) (l : list A) (x : A) :
  In x l -> f x = true ->
  exists l1 l2, l = l1 ++ x :: l2 /\
                filter f l = filter f l1 ++ x :: filter f l2.
Proof.
  intros Hin Hx. apply in_split in Hin as [l1 [l2 ->]].
  exists l1, l2. split; [reflexivity|].
  rewrite filter_app. cbn [filter]. now rewrite Hx.
Qed.

(** After the persisting loop the page shows, for an entry that is not
    blank, the text of that entry. *)
Lemma persist_rows_shown (target : str) (entries : dict str)
    (rows : list Translation.t) (k t : str) :
  NoDup (List.map (varchar KEY_WIDTH) (dict_keys entries)) ->
  In (k, t) entries ->
  is_empty (strip t) = false ->
  exists r added,
    persist_rows target entries rows = rows ++ added /\
    In r added /\
    content r = stored_content target (k, t) /\
    shown (group_rows (persist_rows target entries rows))
          (varchar KEY_WIDTH k) (varchar LANG_WIDTH target) = Some t.
Proof.
  intros Hnd Hin Hblank.
  destruct (persist_rows_content target entries rows) as [added [Hadd Hc]].
  assert (Hnb : nonblank (k, t) = true)
    by (unfold nonblank; cbn [snd]; now rewrite Hblank).
  destruct (in_split _ _ Hin) as [e1 [e2 He]].
  rewrite He, filter_app in Hc. cbn [filter] in Hc. rewrite Hnb in Hc.
  destruct (content_rows_split _ _ _ _ _ _ Hc) as [a1 [r [a2 [Ha [Hr Ha2]]]]].
  subst added.
  assert (Hk : Translation.key r = varchar KEY_WIDTH k)
    by exact (f_equal fst Hr).
  assert (Hl : Translation.lang r = varchar LANG_WIDTH target)
    by exact (f_equal (fun c => fst (snd c)) Hr).
  assert (Ht : Translation.text r = t)
    by exact (f_equal (fun c => snd (snd c)) Hr).
  assert (Hlater : forall x, In x a2 ->
            matches (Translation.key r) (Translation.lang r) x = false).
  { intros x Hx. unfold matches.
    destruct (str_eqb (Translation.key x) (Translation.key r)) eqn:E;
      [|reflexivity].
    exfalso. apply str_eqb_eq in E.
    assert (Hkx : In (content x)
              (List.map (stored_content target) (filter nonblank e2)))
      by (rewrite <- Ha2; apply in_map; exact Hx).
    apply in_map_iff in Hkx as [[k' t'] [Hc' Hin']].
    apply filter_In in Hin' as [Hin' _].
    assert (Hk' : varchar KEY_WIDTH k' = Translation.key x)
      by exact (f_equal fst Hc').
    rewrite He in Hnd. unfold dict_keys in Hnd. rewrite !map_app in Hnd.
    cbn [map fst] in Hnd. apply NoDup_remove_2 in Hnd.
    apply Hnd. apply in_app_iff. right.
    apply in_map_iff. exists k'. split; [congruence|].
    apply in_map_iff. exists (k', t'). split; [reflexivity | exact Hin']. }
  exists r, (a1 ++ r :: a2). split; [exact Hadd|].
  split; [apply in_app_iff; right; left; reflexivity|]. split; [exact Hr|].
  rewrite Hadd, app_assoc, <- Hk, <- Hl, <- Ht.
  apply group_rows_shown_last. exact Hlater.
Qed.

(** Commit, then look: after [/translations/save] with a mapping whose
    keys are distinct as the key column keeps them, every entry whose text
    is not blank has a row for its key (cut to the width of the key column)
    under the request's language (cut to the width of the language column),
    that key is not among the missing keys of that language, and the page
    shows the committed text for the pair, also when the pair had a stored
    text before.  A key and a code within the widths are the key and the
    code as sent. *)
Theorem commit_then_page_shows_committed_text (flags : dict str)
    (upper : str -> str) (str_of_exn : exn -> str)
    (chat : str -> str -> str -> exn + str) (data : BulkSaveRequest) (db : DB)
    (k t : str) :
  NoDup (List.map (varchar KEY_WIDTH) (dict_keys (save_translations data))) ->
  In (k, t) (save_translations data) ->
  is_empty (strip t) = false ->
  let db1 := snd (serve (save_translations_handler str_of_exn data) db) in
  let key := varchar KEY_WIDTH k in
  let code := varchar LANG_WIDTH (save_lang data) in
  ((length k <= KEY_WIDTH)%nat -> key = k) /\
  ((length (save_lang data) <= LANG_WIDTH)%nat -> code = save_lang data) /\
  has_entry (translations db1) key code /\
  ~ In key (missing_keys_of (translations db1) code) /\
  exists ctx,
    serve (show_translations flags upper chat None) db1 = (inr ctx, db1) /\
    shown (ctx_translations ctx) key code = Some t.
Proof.
  intros Hnd Hin Hblank. cbv zeta.
  split; [apply varchar_fits|]. split; [apply varchar_fits|].
  destruct (persist_rows_shown (save_lang data) (save_translations data)
              (translations db) k t Hnd Hin Hblank)
    as [r [added [Hadd [Hr [Hc Hshown]]]]].
  rewrite save_translations_handler_serve. cbn [snd translations].
  assert (Hentry : has_entry (persist_rows (save_lang data)
                                (save_translations data) (translations db))
                     (varchar KEY_WIDTH k) (varchar LANG_WIDTH (save_lang data))).
  { exists r. split; [rewrite Hadd; apply in_app_iff; right; exact Hr|].
    split; [exact (f_equal fst Hc) | exact (f_equal (fun c => fst (snd c)) Hc)]. }
  split; [exact Hentry|]. split.
  - intros Hm. apply missing_keys_spec in Hm. tauto.
  - destruct (show_translations_none flags upper chat
                (mkDB (persist_rows (save_lang data) (save_translations data)
                         (translations db)) (languages db)))
      as [ctx [Hpage [Htr _]]].
    exists ctx. split; [exact Hpage|]. rewrite Htr. exact Hshown.
Qed.

Lemma commit_then_page_shows_committed_text_witness :
  exists ctx,
    fst (serve (show_translations demo_flags demo_upper chat_three_lines None)
           (snd (serve (save_translations_handler no_detail
                          (mkBulkSave (lit "en")
                             [(lit "greeting", lit "Hi"); (lit "bye", lit " ")]))
                       demo_db))) = inr ctx /\
    shown (ctx_translations ctx) (lit "greeting") (lit "en") = Some (lit "Hi").
Proof.
  destruct (@commit_then_page_shows_committed_text demo_flags demo_upper
              no_detail chat_three_lines
              (mkBulkSave (lit "en")
                 [(lit "greeting", lit "Hi"); (lit "bye", lit " ")])
              demo_db (lit "greeting") (lit "Hi"))
    as [_ [_ [_ [_ [ctx [Hrun Hshown]]]]]].
  - vm_compute. repeat constructor; simpl; intuition discriminate.
  - left; reflexivity.
  - vm_compute; reflexivity.
  - exists ctx. split; [exact (f_equal fst Hrun) | exact Hshown].
Defined.

(** ** Reading the reply *)

Lemma COLON_eq : COLON = [58%N].
Proof. reflexivity. Qed.

Lemma split_colon_first (k v : str) :
  contains COLON k = false ->
  split_colon (k ++ COLON ++ v) = Some (k, v) /\
  contains COLON (k ++ COLON ++ v) = true.
Proof.
  induction k as [|c k IH]; intros Hk.
  - split; reflexivity.
  - cbn [contains] in Hk. apply orb_false_iff in Hk as [Hc Hk].
    destruct (IH Hk) as [IH1 IH2].
    assert (Ec : (c =? 58)%N = false).
    { rewrite COLON_eq in Hc. cbn [startswith] in Hc.
      rewrite andb_true_r, N.eqb_sym in Hc. exact Hc. }
    split.
    + cbn [app split_colon]. rewrite Ec.
      change (k ++ 58%N :: v) with (k ++ COLON ++ v). now rewrite IH1.
    + cbn [app contains]. rewrite IH2. apply orb_true_r.
Qed.

(** A reply line is split at its first colon only: what stands before it,
    stripped, is the key; what stands after it, later colons included, is
    stripped and has every [{flag}] token turned into the flag of the
    target language, or into the upper-cased language code when
    [flags.json] has no flag for it.  An earlier entry of the same key is
    overwritten. *)
Theorem reply_line_splits_at_first_colon (flags : dict str)
    (upper : str -> str) (target k v : str) (result : dict str) :
  contains COLON k = false ->
  let marker := match dict_get flags target with
                | Some f => f
                | None => upper target
                end in
  exists text,
    parse_line flags upper target result (k ++ COLON ++ v) =
      dict_set result (strip k) text /\
    dict_get (parse_line flags upper target result (k ++ COLON ++ v)) (strip k)
      = Some text /\
    text = replace FLAG_TOKEN marker (strip v) /\
    replaced_all FLAG_TOKEN marker (strip v) text.
Proof.
  intros Hk. cbv zeta.
  destruct (split_colon_first k v Hk) as [Hs Hc].
  unfold parse_line. rewrite Hc, Hs. unfold flag_of.
  eexists. split; [reflexivity|]. split; [|split; [reflexivity|]].
  - now rewrite dict_get_set, str_eqb_refl.
  - apply replace_replaced_all. discriminate.
Qed.

Lemma reply_line_splits_at_first_colon_witness :
  parse_line demo_flags demo_upper (lit "en") [(lit "open", lit "old")]
    (lit " open : 10:30 {flag} ") =
  [(lit "open", lit "10:30 " ++ GB_FLAG)].
Proof.
  destruct (@reply_line_splits_at_first_colon demo_flags demo_upper (lit "en")
              (lit " open ") (lit " 10:30 {flag} ") [(lit "open", lit "old")]
              eq_refl) as [text [Hparse [_ [Htext _]]]].
  change (lit " open : 10:30 {flag} ")
    with (lit " open " ++ COLON ++ lit " 10:30 {flag} ").
  rewrite Hparse, Htext. vm_compute. reflexivity.
Defined.

Lemma patch_flag_no_match_witness :
  patch_flag demo_flags (lit "Hello {text}, no flag here") =
  lit "Hello {text}, no flag here".
Proof.
  apply (@patch_flag_no_match demo_flags (lit "Hello {text}, no flag here")).
  intros c f [H|[H|[]]]; inversion H; subst; vm_compute; reflexivity.
Defined.

(** ** The counts depend on keys and languages only *)

Lemma dict_mem_set_mem {V} (d : dict V) (k : str) :
  dict_mem d k = set_mem k (dict_keys d).
Proof.
  unfold dict_mem, set_mem, dict_keys.
  induction d as [|[k0 v0] d IH]; cbn [dict_get map fst existsb]; [reflexivity|].
  rewrite (str_eqb_sym k k0). destruct (str_eqb k0 k); [reflexivity | exact IH].
Qed.

Lemma dict_loop_keys {A V} (kf : A -> str) (vf : dict V -> A -> V)
    (xs : list A) :
  forall d0,
    dict_keys (fold_left (fun d x => dict_set d (kf x) (vf d x)) xs d0) =
    fold_left (fun s k => set_add k s) (List.map kf xs) (dict_keys d0).
Proof.
  induction xs as [|x xs IH]; intros d0; cbn [fold_left map]; [reflexivity|].
  rewrite IH, dict_keys_set, dict_mem_set_mem. reflexivity.
Qed.

Lemma group_rows_keys_of (rows : list Translation.t) :
  dict_keys (group_rows rows) =
  fold_left (fun s k => set_add k s) (List.map Translation.key rows) [].
Proof.
  unfold group_rows, set2.
  apply (dict_loop_keys Translation.key
           (fun tr row => dict_set (dict_get_default [] tr (Translation.key row))
                            (Translation.lang row) (Translation.text row))).
Qed.

Lemma used_codes_of (rows : list Translation.t) :
  used_codes rows =
  fold_left (fun s k => set_add k s) (List.map Translation.lang rows) [].
Proof.
  unfold used_codes. generalize (@nil str).
  induction rows as [|r rows IH]; intros s; cbn [fold_left map]; [reflexivity|].
  apply IH.
Qed.

Lemma key_lang_key (rows1 rows2 : list Translation.t) :
  List.map key_lang rows1 = List.map key_lang rows2 ->
  List.map Translation.key rows1 = List.map Translation.key rows2 /\
  List.map Translation.lang rows1 = List.map Translation.lang rows2.
Proof.
  intros H. split.
  - apply (f_equal (List.map fst)) in H. rewrite !map_map in H. exact H.
  - apply (f_equal (List.map snd)) in H. rewrite !map_map in H. exact H.
Qed.

Lemma has_entry_key_lang (rows : list Translation.t) (k l : str) :
  has_entry rows k l <-> In (k, l) (List.map key_lang rows).
Proof.
  unfold has_entry. rewrite in_map_iff. unfold key_lang. split.
  - intros [r [Hin [<- <-]]]. exists r. auto.
  - intros [r [H Hin]]. inversion H. exists r. auto.
Qed.

Lemma fold_left_ext {A B} (f g : A -> B -> A) (l : list B) :
  (forall a b, f a b = g a b) ->
  forall a, fold_left f l a = fold_left g l a.
Proof.
  intros H. induction l as [|b l IH]; intros a; cbn [fold_left]; [reflexivity|].
  rewrite H. apply IH.
Qed.

(** Two catalogues whose rows agree, in order, on key and language give
    the same counts on the ordinary page, whatever the texts. *)
Lemma page_counts_by_key_lang (flags : dict str) (upper : str -> str)
    (chat : str -> str -> str -> exn + str) (db1 db2 db1' db2' : DB)
    (ctx1 ctx2 : Context) :
  List.map key_lang (translations db1) = List.map key_lang (translations db2) ->
  languages db1 = languages db2 ->
  serve (show_translations flags upper chat None) db1 = (inr ctx1, db1') ->
  serve (show_translations flags upper chat None) db2 = (inr ctx2, db2') ->
  ctx_total_keys ctx1 = ctx_total_keys ctx2 /\
  ctx_langs ctx1 = ctx_langs ctx2 /\
  ctx_missing_langs ctx1 = ctx_missing_langs ctx2 /\
  ctx_filled_count ctx1 = ctx_filled_count ctx2 /\
  ctx_missing_count ctx1 = ctx_missing_count ctx2.
Proof.
  intros Hkl Hlangs Hrun1 Hrun2.
  destruct (key_lang_key _ _ Hkl) as [Hkeys Hlang].
  destruct (show_translations_stats _ _ _ _ _ Hrun1) as [Ht1 [Hf1 Hm1]].
  destruct (show_translations_stats _ _ _ _ _ Hrun2) as [Ht2 [Hf2 Hm2]].
  destruct (show_translations_langs _ _ _ _ _ Hrun1) as [_ [Hl1 Hml1]].
  destruct (show_translations_langs _ _ _ _ _ Hrun2) as [_ [Hl2 Hml2]].
  assert (Hfk : filtered_keys_of (group_rows (translations db1)) =
                filtered_keys_of (group_rows (translations db2))).
  { unfold filtered_keys_of. now rewrite !group_rows_keys_of, Hkeys. }
  assert (Hused : used_codes (translations db1) = used_codes (translations db2))
    by (now rewrite !used_codes_of, Hlang).
  assert (Hfilled : forall c,
            filled_for (group_rows (translations db1))
              (filtered_keys_of (group_rows (translations db1))) c =
            filled_for (group_rows (translations db2))
              (filtered_keys_of (group_rows (translations db2))) c).
  { intros c. rewrite !filled_for_counts, Hfk. do 2 f_equal.
    apply filter_ext. intros k.
    destruct (has_entryb (translations db2) k c) eqn:E.
    - apply has_entryb_spec. apply has_entryb_spec in E.
      apply has_entry_key_lang. rewrite Hkl. apply has_entry_key_lang. exact E.
    - destruct (has_entryb (translations db1) k c) eqn:E1; [|reflexivity].
      apply has_entryb_spec in E1. apply has_entry_key_lang in E1.
      rewrite Hkl in E1. apply has_entry_key_lang, has_entryb_spec in E1.
      congruence. }
  assert (HL : ctx_langs ctx1 = ctx_langs ctx2).
  { rewrite Hl1, Hl2. cbn [selected_of selection]. now rewrite Hused, Hlangs. }
  assert (HT : ctx_total_keys ctx1 = ctx_total_keys ctx2)
    by (rewrite Ht1, Ht2, Hfk; reflexivity).
  assert (HF : ctx_filled_count ctx1 = ctx_filled_count ctx2).
  { rewrite Hf1, Hf2, HL. apply fold_left_ext. intros d l.
    now rewrite Hfilled. }
  repeat split; try assumption.
  - rewrite Hml1, Hml2, Hused, Hlangs. reflexivity.
  - rewrite Hm1, Hm2, HT, HF. reflexivity.
Qed.

Lemma write_text_key_lang (row : Translation.t) (t : str)
    (rows : list Translation.t) :
  List.map key_lang (write_text row t rows) = List.map key_lang rows.
Proof.
  unfold write_text. rewrite map_map. apply map_ext. intros r.
  destruct (Z.eqb _ _); reflexivity.
Qed.

(** A manual edit never changes the counts: whatever the request and
    whether it succeeds or fails, the ordinary page afterwards has the
    total, the displayed and the missing languages, and the filled and
    missing counts it had before. *)
Theorem update_keeps_page_counts (flags : dict str) (upper : str -> str)
    (chat : str -> str -> str -> exn + str) (data : UpdateRequest) (db : DB) :
  let db1 := snd (serve (update_translation data) db) in
  exists ctx ctx1,
    serve (show_translations flags upper chat None) db = (inr ctx, db) /\
    serve (show_translations flags upper chat None) db1 = (inr ctx1, db1) /\
    ctx_total_keys ctx1 = ctx_total_keys ctx /\
    ctx_langs ctx1 = ctx_langs ctx /\
    ctx_missing_langs ctx1 = ctx_missing_langs ctx /\
    ctx_filled_count ctx1 = ctx_filled_count ctx /\
    ctx_missing_count ctx1 = ctx_missing_count ctx.
Proof.
  cbv zeta.
  set (db1 := snd (serve (update_translation data) db)).
  destruct (show_translations_returns flags upper chat db) as [ctx Hrun].
  destruct (show_translations_returns flags upper chat db1) as [ctx1 Hrun1].
  exists ctx, ctx1. split; [exact Hrun|]. split; [exact Hrun1|].
  eapply page_counts_by_key_lang; [| |exact Hrun1|exact Hrun];
    subst db1; rewrite update_translation_serve;
    destruct (filter _ (translations db)) as [|r [|r' rest]];
    cbn [snd translations languages]; try reflexivity.
  apply write_text_key_lang.
Qed.

(** ** The codec, there and back *)

Lemma replace_hit (old new rest : str) :
  old <> [] -> replace old new (old ++ rest) = new ++ replace old new rest.
Proof.
  intros Hne. destruct old as [|x old']; [congruence|].
  unfold replace. cbn [app replace_from].
  change (x :: old' ++ rest) with ((x :: old') ++ rest).
  rewrite startswith_app.
  replace (length (x :: old') - 1)%nat with (length old') by (simpl; lia).
  now rewrite replace_from_skip.
Qed.

Lemma replace_keep (old new rest : str) (c : char) :
  startswith old (c :: rest) = false ->
  replace old new (c :: rest) = c :: replace old new rest.
Proof.
  intros Hs. destruct old as [|x old']; [discriminate|].
  unfold replace. cbn [replace_from]. now rewrite Hs.
Qed.

Lemma contains_cons_false (p rest : str) (c : char) :
  contains p (c :: rest) = false ->
  startswith p (c :: rest) = false /\ contains p rest = false.
Proof. cbn [contains]. apply orb_false_iff. Qed.

Lemma contains_app_false (p a rest : str) :
  contains p (a ++ rest) = false -> contains p rest = false.
Proof.
  induction a as [|c a IH]; cbn [app]; [auto|].
  intros H. apply contains_cons_false in H as [_ H]. auto.
Qed.

(** A text without the old string comes back from [replace] as it is. *)
Lemma replace_absent (old new text : str) :
  contains old text = false -> replace old new text = text.
Proof.
  induction text as [|c text IH]; intros H.
  - destruct old; [discriminate | reflexivity].
  - apply contains_cons_false in H as [Hs Hc].
    rewrite replace_keep by exact Hs. now rewrite IH.
Qed.

(** Replacing a string by itself changes nothing. *)
Lemma replaced_all_same (old text out : str) :
  replaced_all old old text out -> out = text.
Proof. induction 1; congruence. Qed.

(** What stands behind a kept character of the encoded text and is made of
    characters that cannot start an inserted piece stood there in the
    source text too. *)
Lemma replaced_all_startswith (old ins : str) (h : char) (q rest out : str) :
  old <> [] ->
  startswith [h] ins = true ->
  Forall (fun x => x <> h) q ->
  replaced_all old ins rest out ->
  startswith q out = true -> startswith q rest = true.
Proof.
  intros Hne Hins Hq. revert rest out.
  induction Hq as [|x q Hx _ IH]; intros rest out Hrep Hs; [reflexivity|].
  inversion Hrep as [Hr Ho|rest' out' Hrep' Hr Ho|c rest' out' Hk Hrep' Hr Ho];
    subst.
  - discriminate.
  - exfalso. destruct ins as [|i ins']; [discriminate|].
    cbn [startswith] in Hins. rewrite andb_true_r in Hins.
    apply N.eqb_eq in Hins. subst i.
    cbn [app startswith] in Hs. apply andb_true_iff in Hs as [Hs _].
    apply N.eqb_eq in Hs. congruence.
  - cbn [startswith] in *. apply andb_true_iff in Hs as [H1 H2].
    rewrite H1. cbn [andb]. eapply IH; eassumption.
Qed.

Lemma FLAG_TOKEN_eq : FLAG_TOKEN = 123%N :: FLAG_TAIL.
Proof. reflexivity. Qed.

Lemma FLAG_TAIL_no (h : char) :
  h = 32%N \/ h = 123%N -> Forall (fun x => x <> h) FLAG_TAIL.
Proof.
  intros [->| ->]; vm_compute; repeat constructor; discriminate.
Qed.

(** Decoding an encoded text: when the source text has no [{flag}] of its
    own, decoding finds exactly the tokens the encoding put in. *)
Lemma decode_encoded (old p marker text enc : str) :
  old <> [] ->
  p = [] \/ p = SPACE ->
  contains FLAG_TOKEN text = false ->
  replaced_all old (p ++ FLAG_TOKEN) text enc ->
  replaced_all old (p ++ marker) text (replace FLAG_TOKEN marker enc).
Proof.
  intros Hne Hp Htok Hrep.
  assert (Hhead : exists h, (h = 32%N \/ h = 123%N) /\
                            startswith [h] (p ++ FLAG_TOKEN) = true).
  { destruct Hp as [-> | ->]; [exists 123%N | exists 32%N];
      split; auto; reflexivity. }
  destruct Hhead as [h [Hh Hins]].
  induction Hrep as [|rest out Hrep IH|c rest out Hk Hrep IH].
  - constructor.
  - apply contains_app_false in Htok.
    assert (E : replace FLAG_TOKEN marker ((p ++ FLAG_TOKEN) ++ out) =
                (p ++ marker) ++ replace FLAG_TOKEN marker out).
    { destruct Hp as [-> | ->].
      - cbn [app]. apply replace_hit. discriminate.
      - rewrite <- !app_assoc. change (SPACE ++ ?x) with (32%N :: x).
        rewrite replace_keep by reflexivity.
        rewrite replace_hit by discriminate. reflexivity. }
    rewrite E. apply replaced_hit. apply IH. exact Htok.
  - apply contains_cons_false in Htok as [Hs Hc].
    assert (Hs' : startswith FLAG_TOKEN (c :: out) = false).
    { destruct (startswith FLAG_TOKEN (c :: out)) eqn:E; [|reflexivity].
      rewrite FLAG_TOKEN_eq in E, Hs. cbn [startswith] in E, Hs.
      apply andb_true_iff in E as [E1 E2]. rewrite E1 in Hs. cbn [andb] in Hs.
      rewrite (replaced_all_startswith Hne Hins (FLAG_TAIL_no Hh) Hrep E2) in Hs.
      discriminate. }
    rewrite replace_keep by exact Hs'.
    apply replaced_keep; [exact Hk|]. apply IH. exact Hc.
Qed.

Lemma patch_flag_first (flags before after : dict str) (code flag text : str) :
  flags = before ++ (code, flag) :: after ->
  (forall c f, In (c, f) before -> qualifies f text = false) ->
  qualifies flag text = true ->
  patch_flag flags text =
  if contains (SPACE ++ flag) text
  then replace (SPACE ++ flag) SPACE_FLAG_TOKEN text
  else replace flag FLAG_TOKEN text.
Proof.
  intros -> Hbefore Hq.
  induction before as [|[c f] rest IH]; cbn [app patch_flag].
  - destruct (contains (SPACE ++ flag) text) eqn:Hc; [reflexivity|].
    unfold qualifies in Hq. rewrite Hc in Hq. cbn [orb] in Hq. now rewrite Hq.
  - assert (Hf : qualifies f text = false)
      by (apply (Hbefore c); left; reflexivity).
    unfold qualifies in Hf. apply orb_false_iff in Hf as [-> ->].
    apply IH. intros c' f' Hin. apply (Hbefore c'). right; exact Hin.
Qed.

(** Encode, then decode, a text without markers: a text in which no
    marker of the table follows a space or ends the text, and which has no
    [{flag}] of its own, comes back from [patch_flag] followed by the
    decoding replace exactly as it was, whatever the target marker. *)
Theorem codec_round_trip_plain (flags : dict str) (marker text : str) :
  (forall c f, In (c, f) flags -> qualifies f text = false) ->
  contains FLAG_TOKEN text = false ->
  replace FLAG_TOKEN marker (patch_flag flags text) = text.
Proof.
  intros Hno Htok.
  assert (H : patch_flag flags text = text).
  { induction flags as [|[c f] rest IH]; cbn [patch_flag]; [reflexivity|].
    assert (Hq : qualifies f text = false) by (apply (Hno c); left; reflexivity).
    unfold qualifies in Hq. apply orb_false_iff in Hq as [-> ->].
    apply IH. intros c' f' Hin. apply (Hno c'). right; exact Hin. }
  rewrite H. apply replace_absent. exact Htok.
Qed.

Lemma codec_round_trip_plain_witness :
  replace FLAG_TOKEN GB_FLAG
    (patch_flag demo_flags (lit "Hello {text}\n, {moderator}")) =
  lit "Hello {text}\n, {moderator}".
Proof.
  apply (@codec_round_trip_plain demo_flags GB_FLAG
           (lit "Hello {text}\n, {moderator}")).
  - intros c f [H|[H|[]]]; inversion H; subst; vm_compute; reflexivity.
  - vm_compute. reflexivity.
Defined.

(** Encode, then decode, a text with a marker: for a text without a
    [{flag}] of its own, the round trip swaps the marker the encoding acted
    on for the target marker at every place the encoding touched and leaves
    the rest; with the source marker as target the text comes back as it
    was. *)
Theorem codec_swaps_marker (flags before after : dict str)
    (code flag marker text : str) :
  flags = before ++ (code, flag) :: after ->
  (forall c f, In (c, f) before -> qualifies f text = false) ->
  qualifies flag text = true ->
  flag <> [] ->
  contains FLAG_TOKEN text = false ->
  let out := replace FLAG_TOKEN marker (patch_flag flags text) in
  (contains (SPACE ++ flag) text = true ->
   replaced_all (SPACE ++ flag) (SPACE ++ marker) text out) /\
  (contains (SPACE ++ flag) text = false ->
   replaced_all flag marker text out) /\
  (marker = flag -> out = text).
Proof.
  intros Hflags Hbefore Hq Hne Htok. cbv zeta.
  rewrite (@patch_flag_first flags before after code flag text Hflags Hbefore Hq).
  assert (H1 : contains (SPACE ++ flag) text = true ->
               replaced_all (SPACE ++ flag) (SPACE ++ marker) text
                 (replace FLAG_TOKEN marker
                    (replace (SPACE ++ flag) SPACE_FLAG_TOKEN text))).
  { intros _. apply decode_encoded; [discriminate | right; reflexivity | exact Htok|].
    change (SPACE ++ FLAG_TOKEN) with SPACE_FLAG_TOKEN.
    apply replace_replaced_all. discriminate. }
  assert (H2 : replaced_all flag marker text
                 (replace FLAG_TOKEN marker (replace flag FLAG_TOKEN text))).
  { apply (decode_encoded (old:=flag) (p:=[]));
      [exact Hne | left; reflexivity | exact Htok|].
    apply replace_replaced_all. exact Hne. }
  destruct (contains (SPACE ++ flag) text) eqn:Hc.
  - split; [exact H1|]. split; [discriminate|].
    intros ->. apply (replaced_all_same (H1 eq_refl)).
  - split; [discriminate|]. split; [intros _; exact H2|].
    intros ->. apply (replaced_all_same H2).
Qed.

Lemma codec_swaps_marker_witness :
  replace FLAG_TOKEN GB_FLAG
    (patch_flag demo_flags (lit "Language: {text} " ++ RU_FLAG)) =
  lit "Language: {text} " ++ GB_FLAG /\
  replace FLAG_TOKEN RU_FLAG
    (patch_flag demo_flags (lit "Language: {text} " ++ RU_FLAG)) =
  lit "Language: {text} " ++ RU_FLAG.
Proof.
  assert (Hb : forall c f, In (c, f) [(lit "en", GB_FLAG)] ->
               qualifies f (lit "Language: {text} " ++ RU_FLAG) = false).
  { intros c f [H|[]]. inversion H; subst. vm_compute. reflexivity. }
  assert (Hne : RU_FLAG <> []) by discriminate.
  split.
  - destruct (@codec_swaps_marker demo_flags [(lit "en", GB_FLAG)] []
                (lit "ru") RU_FLAG GB_FLAG (lit "Language: {text} " ++ RU_FLAG)
                eq_refl Hb eq_refl Hne eq_refl) as [H _].
    specialize (H eq_refl).
    apply (replaced_all_functional (old:=SPACE ++ RU_FLAG)
             (new:=SPACE ++ GB_FLAG)
             (text:=lit "Language: {text} " ++ RU_FLAG));
      [discriminate | exact H |].
    change (lit "Language: {text} " ++ RU_FLAG)
      with (lit "Language: {text}" ++ (SPACE ++ RU_FLAG) ++ []) at 1.
    change (lit "Language: {text} " ++ GB_FLAG)
      with (lit "Language: {text}" ++ (SPACE ++ GB_FLAG) ++ []).
    cbn [lit list_ascii_of_string map app].
    repeat (apply replaced_keep; [vm_compute; reflexivity|]).
    apply replaced_hit. constructor.
  - exact (proj2 (proj2 (@codec_swaps_marker demo_flags [(lit "en", GB_FLAG)] []
                (lit "ru") RU_FLAG RU_FLAG (lit "Language: {text} " ++ RU_FLAG)
                eq_refl Hb eq_refl Hne eq_refl)) eq_refl).
Defined.

(** ** Nothing asked, anything stored *)

Lemma nil_iff_no_element {A} (l : list A) : (forall x, ~ In x l) -> l = [].
Proof.
  destruct l as [|x l]; [reflexivity|]. intros H. exfalso.
  apply (H x). left; reflexivity.
Qed.

(** When the target language has every key the source language has,
    [translate_missing] does not stop short: it still calls the capability,
    with an empty message, and answers with whatever lines the reply
    holds. *)
Theorem translate_missing_nothing_missing (flags : dict str)
    (upper : str -> str) (chat : str -> str -> str -> exn + str) (db : DB)
    (lang : str) (l : Language.t) :
  find (fun x => str_eqb (Language.code x) lang) (languages db) = Some l ->
  (forall k, has_entry (translations db) k RU ->
             has_entry (translations db) k lang) ->
  missing_keys_of (translations db) lang = [] /\
  serve (translate_missing flags upper chat lang) db =
    (match chat (Language.name_ru l) (emoji_or_empty l) [] with
     | inl e => inl e
     | inr content =>
         inr (fold_left (parse_line flags upper lang)
                        (splitlines (strip content)) [])
     end, db).
Proof.
  intros Hfind Hall.
  assert (Hnil : missing_keys_of (translations db) lang = []).
  { apply nil_iff_no_element. intros k Hk.
    apply missing_keys_spec in Hk as [Hru Hno]. auto. }
  split; [exact Hnil|].
  rewrite translate_missing_serve, Hfind, Hnil. reflexivity.
Qed.

Lemma translate_missing_nothing_missing_witness :
  serve (translate_missing demo_flags demo_upper chat_three_lines (lit "en"))
        full_db =
  (inr [(lit "greeting", lit "Hi"); (lit "bye", GB_FLAG); (lit "x", [])],
   full_db).
Proof.
  refine (eq_trans
            (proj2 (@translate_missing_nothing_missing demo_flags demo_upper
                      chat_three_lines full_db (lit "en") lang_en eq_refl _))
            _).
  - intros k [r [Hin [Hk Hl]]].
    destruct Hin as [<-|[<-|[]]]; [|vm_compute in Hl; discriminate].
    subst k. exists (Translation.mk 2 (lit "greeting") (lit "en") (lit "Hello")).
    split; [right; left; reflexivity | split; reflexivity].
  - vm_compute. reflexivity.
Defined.



(** ** The keys of a reply *)

Lemma lstrip_snoc (a : str) (c : char) :
  isspace c = false -> lstrip (a ++ [c]) = lstrip a ++ [c].
Proof.
  intros Hc. induction a as [|x a IH]; cbn [app lstrip].
  - now rewrite Hc.
  - destruct (isspace x); [exact IH | reflexivity].
Qed.

Lemma rstrip_cons (c : char) (s : str) :
  isspace c = false -> rstrip (c :: s) = c :: rstrip s.
Proof.
  intros Hc. unfold rstrip. cbn [rev].
  rewrite lstrip_snoc by exact Hc. now rewrite rev_app_distr.
Qed.

Lemma lstrip_head (s : str) :
  lstrip s = [] \/ exists c t, lstrip s = c :: t /\ isspace c = false.
Proof.
  induction s as [|x s IH]; cbn [lstrip]; [left; reflexivity|].
  destruct (isspace x) eqn:E; [exact IH|]. right. exists x, s. auto.
Qed.

Lemma lstrip_idem (s : str) : lstrip (lstrip s) = lstrip s.
Proof.
  destruct (lstrip_head s) as [->|[c [t [-> Hc]]]]; [reflexivity|].
  cbn [lstrip]. now rewrite Hc.
Qed.

(** Stripping twice is stripping once. *)
Lemma strip_idem (s : str) : strip (strip s) = strip s.
Proof.
  unfold strip at 1.
  assert (Hl : lstrip (strip s) = strip s).
  { unfold strip. destruct (lstrip_head s) as [->|[c [t [-> Hc]]]];
      [reflexivity|].
    rewrite rstrip_cons by exact Hc. cbn [lstrip]. now rewrite Hc. }
  rewrite Hl. unfold strip, rstrip. now rewrite rev_involutive, lstrip_idem.
Qed.

Lemma no_colon_contains (s : str) : contains COLON s = negb (no_colon s).
Proof.
  rewrite COLON_eq. induction s as [|c s IH]; [reflexivity|].
  cbn [contains startswith no_colon forallb]. rewrite IH, andb_true_r.
  rewrite (N.eqb_sym 58 c). destruct (c =? 58)%N; reflexivity.
Qed.

Lemma no_colon_lstrip (s : str) : no_colon s = true -> no_colon (lstrip s) = true.
Proof.
  induction s as [|c s IH]; [auto|]. cbn [lstrip]. intros H.
  destruct (isspace c); [|exact H].
  cbn [no_colon forallb] in H. apply andb_true_iff in H as [_ H]. auto.
Qed.

Lemma no_colon_rev (s : str) : no_colon (rev s) = no_colon s.
Proof. apply forallb_rev. Qed.

Lemma no_colon_strip (s : str) : no_colon s = true -> no_colon (strip s) = true.
Proof.
  intros H. unfold strip, rstrip. rewrite no_colon_rev.
  apply no_colon_lstrip. rewrite no_colon_rev. apply no_colon_lstrip. exact H.
Qed.

Lemma split_colon_key (line k v : str) :
  split_colon line = Some (k, v) -> no_colon k = true.
Proof.
  revert k. induction line as [|c line IH]; intros k; cbn [split_colon];
    [discriminate|].
  destruct (c =? 58)%N eqn:E.
  - intros H; inversion H. reflexivity.
  - destruct (split_colon line) as [[k' v']|]; [|discriminate].
    intros H; inversion H; subst. cbn [no_colon forallb]. rewrite E.
    cbn [negb andb]. apply (IH k' eq_refl).
Qed.

Lemma parse_keys_clean (flags : dict str) (upper : str -> str) (target : str)
    (lines : list str) :
  forall d,
    (forall k, In k (dict_keys d) -> no_colon k = true /\ strip k = k) ->
    forall k, In k (dict_keys (fold_left (parse_line flags upper target) lines d)) ->
              no_colon k = true /\ strip k = k.
Proof.
  induction lines as [|line lines IH]; intros d Hd; cbn [fold_left]; [exact Hd|].
  apply IH. unfold parse_line.
  destruct (contains COLON line); [|exact Hd].
  destruct (split_colon line) as [[k0 v0]|] eqn:Hs; [|exact Hd].
  intros k Hk. rewrite dict_keys_set in Hk.
  destruct (dict_mem d (strip k0)); [apply Hd; exact Hk|].
  apply in_app_iff in Hk as [Hk|[<-|[]]]; [apply Hd; exact Hk|].
  split; [|apply strip_idem].
  apply no_colon_strip. eapply split_colon_key. exact Hs.
Qed.

(** Every key of a reply mapping is stripped and has no colon, and no key
    occurs twice: a catalogue key with a colon, or with blanks at its ends,
    is never a key of a reply. *)
Theorem reply_keys_are_stripped_and_colon_free (flags : dict str)
    (upper : str -> str) (chat : str -> str -> str -> exn + str)
    (batch : dict str) (target lang_name emoji : str) (reply : dict str) :
  translate_with_gpt flags upper chat batch target lang_name emoji = inr reply ->
  NoDup (dict_keys reply) /\
  forall k, In k (dict_keys reply) ->
    contains COLON k = false /\ strip k = k.
Proof.
  intros H. split; [eapply translate_with_gpt_NoDup; exact H|].
  unfold translate_with_gpt in H. destruct (chat _ _ _); [discriminate|].
  inversion H; subst. intros k Hk.
  destruct (parse_keys_clean flags upper target
              (splitlines (strip s)) [] (fun k (F : In k []) => match F with end)
              k Hk) as [Hc Hs].
  split; [|exact Hs]. now rewrite no_colon_contains, Hc.
Qed.

Lemma reply_keys_are_stripped_and_colon_free_witness :
  contains COLON (lit "greeting") = false /\
  strip (lit "greeting") = lit "greeting".
Proof.
  apply (proj2 (@reply_keys_are_stripped_and_colon_free demo_flags demo_upper
                  chat_three_lines [] (lit "en") (lit "English") GB_FLAG
                  [(lit "greeting", lit "Hi"); (lit "bye", GB_FLAG); (lit "x", [])]
                  eq_refl)).
  left; reflexivity.
Defined.

(** ** The backfill: what is asked, and what becomes of the answer *)

Lemma contains_starts (p text : str) :
  startswith p text = true -> contains p text = true.
Proof.
  intros H. destruct text; cbn [contains]; rewrite H; reflexivity.
Qed.

Lemma contains_app_r (p a text : str) :
  contains p text = true -> contains p (a ++ text) = true.
Proof.
  intros H. induction a as [|c a IH]; [exact H|].
  cbn [app contains]. rewrite IH. apply orb_true_r.
Qed.

(** A part of a joined string is a substring of it. *)
Lemma join_contains (sep p : str) (parts : list str) :
  In p parts -> contains p (join sep parts) = true.
Proof.
  induction parts as [|q [|q' rest] IH]; intros Hin.
  - destruct Hin.
  - destruct Hin as [<-|[]]. cbn [join].
    rewrite <- (app_nil_r q) at 2. apply contains_starts, startswith_app.
  - change (join sep (q :: q' :: rest))
      with (q ++ sep ++ join sep (q' :: rest)).
    destruct Hin as [<-|Hin].
    + apply contains_starts, startswith_app.
    + apply contains_app_r, contains_app_r, IH, Hin.
Qed.

Lemma filter_two_app {A} (f : A -> bool) (l1 l2 : list A) (x y : A) :
  In x l1 -> In y l2 -> f x = true -> f y = true ->
  exists a b rest, filter f (l1 ++ l2) = a :: b :: rest.
Proof.
  intros Hx Hy Hfx Hfy. rewrite filter_app.
  assert (H1 : In x (filter f l1)) by (apply filter_In; auto).
  assert (H2 : In y (filter f l2)) by (apply filter_In; auto).
  destruct (filter f l1) as [|a [|b rest]]; [destruct H1| |].
  - destruct (filter f l2) as [|b rest]; [destruct H2|].
    exists a, b, rest. reflexivity.
  - exists a, b, (rest ++ filter f l2). reflexivity.
Qed.

(** C10: the batch of [/translate_with_gpt] is one entry per key that has
    a Russian row, whatever the key (the reserved ["welcome"] too) and
    whether or not the target language already has it.  The capability is
    asked with the language's Russian name, its emoji, and one line
    [key: text] per entry of the batch, joined by line feeds; a failure is
    answered 500 and a reply is parsed and persisted.  The rows that were
    there are kept, but nothing keeps a reply from taking the place of a
    stored entry: where the reply has a text that is not blank for a key
    the target language already has, the page shows the reply's text for
    it, and the next manual edit of the pair is answered 500.  (Keys and
    code within the widths of their columns.) *)
Theorem backfill_batch_is_every_ru_entry (flags : dict str)
    (upper : str -> str) (str_of_exn : exn -> str)
    (chat : str -> str -> str -> exn + str) (db : DB) (l : Language.t) :
  find (fun x => str_eqb (Language.code x) (Language.code l)) (languages db)
    = Some l ->
  let rows := translations db in
  let target := Language.code l in
  let batch := ru_dict_of (filter is_ru rows) in
  let prompt_lines :=
    List.map (fun kt => fst kt ++ COLON_SPACE ++ patch_flag flags (snd kt))
             batch in
  let formatted := join NEWLINE prompt_lines in
  let out := serve (gpt_translation_handler flags upper str_of_exn chat
                      target) db in
  (forall k, dict_mem batch k = true <-> has_entry rows k RU) /\
  (has_entry rows WELCOME RU -> dict_mem batch WELCOME = true) /\
  (forall k, has_entry rows k RU -> has_entry rows k target ->
             dict_mem batch k = true) /\
  (length prompt_lines = length batch /\
   forall k t, In (k, t) batch ->
     In (k ++ COLON_SPACE ++ patch_flag flags t) prompt_lines /\
     contains (k ++ COLON_SPACE ++ patch_flag flags t) formatted = true) /\
  out =
    match chat (Language.name_ru l) (emoji_or_empty l) formatted with
    | inl e => (inl (HTTPException 500 (str_of_exn e)), db)
    | inr content =>
        let reply := fold_left (parse_line flags upper target)
                               (splitlines (strip content)) [] in
        (inr (mkAdded OK (Z.of_nat (length reply))),
         mkDB (persist_rows target reply rows) (languages db))
    end /\
  (exists extra, translations (snd out) = rows ++ extra) /\
  (forall content k t edit,
     chat (Language.name_ru l) (emoji_or_empty l) formatted = inr content ->
     let reply := fold_left (parse_line flags upper target)
                            (splitlines (strip content)) [] in
     (forall k', In k' (dict_keys reply) -> (length k' <= KEY_WIDTH)%nat) ->
     (length target <= LANG_WIDTH)%nat ->
     In (k, t) reply ->
     is_empty (strip t) = false ->
     has_entry rows k target ->
     shown (group_rows (translations (snd out))) k target = Some t /\
     serve (update_translation (mkUpdate k target edit)) (snd out) =
       (inl (HTTPException 500 INTERNAL_SERVER_ERROR), snd out)).
Proof.
  intros Hfind. cbv zeta.
  split; [intros k; apply ru_dict_of_mem|].
  split; [apply ru_dict_of_mem|].
  split; [intros k H _; apply ru_dict_of_mem; exact H|].
  split.
  { split; [apply length_map|]. intros k t Hin.
    assert (Hline : In (k ++ COLON_SPACE ++ patch_flag flags t)
              (List.map (fun kt => fst kt ++ COLON_SPACE
                                   ++ patch_flag flags (snd kt))
                 (ru_dict_of (filter is_ru (translations db)))))
      by (apply in_map_iff; exists (k, t); split; [reflexivity | exact Hin]).
    split; [exact Hline | apply join_contains; exact Hline]. }
  rewrite gpt_translation_handler_serve, Hfind.
  unfold translate_with_gpt, format_batch.
  destruct (chat _ _ _) as [e|content]; cbn [snd translations].
  - split; [reflexivity|]. split; [exists []; symmetry; apply app_nil_r|].
    intros ? ? ? ? H; discriminate H.
  - split; [reflexivity|]. split.
    { destruct (persist_rows_appends (Language.code l)
                  (fold_left (parse_line flags upper (Language.code l))
                     (splitlines (strip content)) []) (translations db))
        as [extra [He _]].
      exists extra. exact He. }
    intros content' k t edit Hc Hkeys Hcode Hin Hblank [old [Hold [Hok Hol]]].
    injection Hc as <-.
    set (reply := fold_left (parse_line flags upper (Language.code l))
                    (splitlines (strip content)) []) in *.
    assert (Hnd : NoDup (List.map (varchar KEY_WIDTH) (dict_keys reply))).
    { rewrite (map_ext_in (varchar KEY_WIDTH) (fun x => x)).
      - rewrite map_id. apply parse_NoDup. constructor.
      - intros k' Hk'. apply varchar_fits, Hkeys, Hk'. }
    assert (Hk : (length k <= KEY_WIDTH)%nat).
    { apply Hkeys. unfold dict_keys. apply in_map_iff.
      exists (k, t). split; [reflexivity | exact Hin]. }
    destruct (persist_rows_shown (Language.code l) reply (translations db)
                k t Hnd Hin Hblank)
      as [r [added [Hadd [Hr [Hcont Hshown]]]]].
    rewrite (varchar_fits _ Hk), (varchar_fits _ Hcode) in Hshown.
    split; [exact Hshown|].
    rewrite update_translation_serve. cbn [upd_key upd_lang translations].
    assert (Hmr : matches k (Language.code l) r = true).
    { apply matches_spec. unfold stored_content in Hcont. cbn [fst snd] in Hcont.
      rewrite (varchar_fits _ Hk), (varchar_fits _ Hcode) in Hcont.
      split; [exact (f_equal fst Hcont)
             | exact (f_equal (fun c => fst (snd c)) Hcont)]. }
    assert (Hmo : matches k (Language.code l) old = true)
      by (apply matches_spec; split; assumption).
    destruct (filter_two_app (matches k (Language.code l)) _ _ _ _
                Hold Hr Hmo Hmr) as [a [b [rest Hf]]].
    rewrite Hadd, Hf. reflexivity.
Qed.

Lemma backfill_batch_is_every_ru_entry_witness :
  let out := serve (gpt_translation_handler demo_flags demo_upper no_detail
                      chat_probe (lit "en")) demo_db in
  dict_mem (ru_dict_of (filter is_ru demo_rows)) WELCOME = true /\
  out = (inr (mkAdded OK 1),
         mkDB (demo_rows ++ [Translation.mk 5 (lit "greeting") (lit "en")
                               (lit "Hi")])
              [lang_en; lang_ru; lang_pl]) /\
  shown (group_rows (translations (snd out))) (lit "greeting") (lit "en")
    = Some (lit "Hi") /\
  serve (update_translation (mkUpdate (lit "greeting") (lit "en")
                               (lit "Hey"))) (snd out) =
    (inl (HTTPException 500 INTERNAL_SERVER_ERROR), snd out).
Proof.
  destruct (@backfill_batch_is_every_ru_entry demo_flags demo_upper no_detail
              chat_probe demo_db lang_en eq_refl)
    as [_ [Hw [_ [_ [Hout [_ Hsup]]]]]].
  cbv zeta. split; [|split].
  - apply Hw. exists (Translation.mk 1 (lit "welcome") (lit "ru") (lit "W")).
    repeat split. left; reflexivity.
  - etransitivity; [exact Hout|]. vm_compute. reflexivity.
  - apply (Hsup (lit "greeting: Hi") (lit "greeting") (lit "Hi") (lit "Hey")).
    + vm_compute. reflexivity.
    + intros k' Hk'. vm_compute in Hk'. destruct Hk' as [<-|[]].
      vm_compute. lia.
    + vm_compute. lia.
    + vm_compute. left; reflexivity.
    + vm_compute. reflexivity.
    + exists (Translation.mk 4 (lit "greeting") (lit "en") (lit "Hello")).
      repeat split. do 3 right; left; reflexivity.
Defined.
